(** * MuJoCo generic controller: capability reconciliation and runtime loop

    A shallow embedding of [simulators/mujoco/generic/controller.py]:
    the scene introspection that builds [sensor_information] and
    [actuator_information], the two reconciliation loops and the pruning
    loop of [__main__], the [action] function that applies an inbound
    command batch to [data.ctrl], and the contact-force record
    [force_list].

    Python dictionaries whose iteration order decides the result (the
    information dictionaries walked by the reconciliation loops) are
    insertion-ordered association lists; dictionaries that are only looked
    up, or whose traversal order cannot be observed, are [gmap]s.  A
    [KeyError] or [IndexError] of the script is a [Raise] of the [result]
    type.  Floating-point numbers are only ever copied by the modelled
    code, so they are carried as rationals. *)

From Stdlib Require Import QArith.
From stdpp Require Import gmap strings list fin_maps pretty numbers.

Local Open Scope Z_scope.
Local Open Scope nat_scope.

(** ** Exceptions *)

Inductive error : Type :=
| KeyError
| IndexError.

Inductive result (A : Type) : Type :=
| Ok (a : A)
| Raise (e : error).
Arguments Ok {A} a.
Arguments Raise {A} e.

Definition rbind {A B : Type} (r : result A) (k : A → result B) : result B :=
  match r with
  | Ok a => k a
  | Raise e => Raise e
  end.

Notation "x ←? r ; k" := (rbind r (λ x, k))
  (at level 100, r at next level, right associativity,
   format "x  ←?  r ;  '/' k").

(** [d[k]] on a dictionary: a missing key raises [KeyError]. *)
Definition getitem {V : Type} (d : gmap string V) (k : string) : result V :=
  match d !! k with
  | Some v => Ok v
  | None => Raise KeyError
  end.

(** ** Values *)

(** [str(n)] for a non-negative integer. *)
Definition py_str (n : nat) : string := pretty n.

(** The values a capability record can hold (the template is loaded from
    JSON; the reconciler stores strings, integers and floats). *)
#[local] Set Warnings "-register-all".
Inductive value : Type :=
| VNone
| VBool (b : bool)
| VInt (z : Z)
| VFloat (x : Q)
| VStr (s : string)
| VList (l : list value)
| VDict (l : list (string * value)).

(** A CapabilityEntry is a dictionary from field name to value; a category
    maps an index string to its entry, a section maps a category to its
    indexed entries, and the capabilities map a section name to a section. *)
Abbreviation entry := (gmap string value).
Abbreviation category := (gmap string (gmap string value)).
Abbreviation section := (gmap string (gmap string (gmap string value))).
Abbreviation caps := (gmap string (gmap string (gmap string (gmap string value)))).

(** Reading [capabilities[I_O][device_name]] and
    [capabilities[I_O][device_name][device_id]] where the keys may be
    missing ([dict.get] all the way down). *)
Definition get_category (capabilities : caps) (I_O device_name : string)
  : option category :=
  match capabilities !! I_O with
  | Some sec => sec !! device_name
  | None => None
  end.

Definition get_entry (capabilities : caps) (I_O device_name device_id : string)
  : option entry :=
  match get_category capabilities I_O device_name with
  | Some indexed => indexed !! device_id
  | None => None
  end.

Definition get_field (capabilities : caps) (I_O device_name device_id field : string)
  : option value :=
  match get_entry capabilities I_O device_name device_id with
  | Some e => e !! field
  | None => None
  end.

(** ** The lookup tables *)

Definition TRANSMISSION_TYPES : gmap string string :=
  {[ "position" := "servo"; "motor" := "motor" ]}.

Definition SENSING_TYPES : gmap string string :=
  {[ "framequat" := "gyro"; "distance" := "proximity"; "rangefinder" := "camera" ]}.

(** ** [action]: applying an inbound command batch *)

(** [ctrl[k] = v] on an array of [len(ctrl)] slots, with Python's index
    resolution: a negative [k] counts from the end, anything outside
    [-len, len) raises [IndexError]. *)
Definition ctrl_setitem (ctrl : list Q) (k : Z) (v : Q) : result (list Q) :=
  let n := Z.of_nat (length ctrl) in
  if bool_decide (0 ≤ k)%Z then
    if bool_decide (k < n)%Z then Ok (<[Z.to_nat k := v]> ctrl) else Raise IndexError
  else
    if bool_decide (- n ≤ k)%Z then Ok (<[Z.to_nat (n + k) := v]> ctrl)
    else Raise IndexError.

(** One iteration of either loop of [action]:
    [if (len(data.ctrl) - 1) >= servo_number: data.ctrl[servo_number] = power]. *)
Definition action_item (servo_number : Z) (power : Q) (ctrl : result (list Q))
  : result (list Q) :=
  c ←? ctrl;
  if bool_decide (servo_number ≤ Z.of_nat (length c) - 1)%Z
  then ctrl_setitem c servo_number power
  else Ok c.

(** [for real_id in d: ...], guarded by the truth value of [d] (an empty
    dictionary is false).  The keys of a dictionary are distinct, so the
    order of the traversal does not show in the result. *)
Definition action_loop (d : gmap Z Q) (ctrl : list Q) : result (list Q) :=
  if bool_decide (d = ∅) then Ok ctrl
  else map_fold action_item (Ok ctrl) d.

(** [action], on the two dictionaries the connector extracts from the
    inbound message ([get_servo_position_data] and [get_servo_data]). *)
Definition action (recieve_servo_position_data recieve_servo_data : gmap Z Q)
    (ctrl : list Q) : result (list Q) :=
  c ←? action_loop recieve_servo_position_data ctrl;
  action_loop recieve_servo_data c.

(** What one loop of [action] over the dictionary [d] leaves in a control
    array that held [ctrl]: no exception, the same number of slots, each
    listed slot holding its value and every other slot its old one. *)
Definition loop_post (d : gmap Z Q) (ctrl : list Q) (r : result (list Q)) : Prop :=
  ∃ ctrl', r = Ok ctrl' ∧ length ctrl' = length ctrl ∧
    ∀ i : nat, i < length ctrl →
      ctrl' !! i = match d !! Z.of_nat i with
                   | Some v => Some v
                   | None => ctrl !! i
                   end.

(** ** Scene introspection *)

(** [sensor_name[:-4]]: everything but the last four characters (the
    empty string when there are fewer than four). *)
Definition strip_last4 (sensor_name : string) : string :=
  String.substring 0 (String.length sensor_name - 4) sensor_name.

(** The name under which sensor [i] is described: raw type 7 loses its
    last four characters. *)
Definition descriptor_name (sensor_name : string) (test_sensor_type : Z) : string :=
  if bool_decide (test_sensor_type = 7%Z) then strip_last4 sensor_name
  else sensor_name.

(** [d[k] = v] on an insertion-ordered dictionary: an existing key keeps
    its position and takes the new value, a new key goes to the end. *)
Fixpoint dict_set {V : Type} (k : string) (v : V) (d : list (string * V))
  : list (string * V) :=
  match d with
  | [] => [(k, v)]
  | (k', v') :: d' =>
      if bool_decide (k = k') then (k, v) :: d' else (k', v') :: dict_set k v d'
  end.

(** The loop over [range(model.nsensor)].  [xml_input] is
    [xml_actuators_type['input']] with the one-field record
    [{'type': tag}] flattened to its tag; [sensors] lists
    [(model.sensor(i).name, model.sensor(i).type)]. *)
Fixpoint build_sensor_information (xml_input : gmap string string)
    (sensors : list (string * Z)) (sensor_information : list (string * string))
  : result (list (string * string)) :=
  match sensors with
  | [] => Ok sensor_information
  | (sensor_name, test_sensor_type) :: rest =>
      let sensor_name := descriptor_name sensor_name test_sensor_type in
      sensor_type ←? getitem xml_input sensor_name;
      build_sensor_information xml_input rest
        (dict_set sensor_name sensor_type sensor_information)
  end.

(** The loop over [range(model.nu)]; [actuators] lists
    [(model.actuator(i).name, model.actuator_ctrlrange[i])]. *)
Fixpoint build_actuator_information (xml_output : gmap string string)
    (actuators : list (string * (Q * Q)))
    (actuator_information : list (string * (string * (Q * Q))))
  : result (list (string * (string * (Q * Q)))) :=
  match actuators with
  | [] => Ok actuator_information
  | (actuator_name, range) :: rest =>
      actuator_type ←? getitem xml_output actuator_name;
      build_actuator_information xml_output rest
        (dict_set actuator_name (actuator_type, range) actuator_information)
  end.

(** ** The capability reconciler *)

(** The variables the two loops share or carry from one iteration to the
    next. *)
Record rstate : Type := RState {
  capabilities : caps;
  list_to_not_delete_device : list string;
  increment : nat;
  temp_copy_property_input : entry;
  temp_copy_property_output : entry
}.

(** The state at line 220. *)
Definition initial_state (capabilities : caps) : rstate :=
  {| capabilities := capabilities;
     list_to_not_delete_device := [];
     increment := 0;
     temp_copy_property_input := ∅;
     temp_copy_property_output := ∅ |}.

(** The index bookkeeping both loops share: a category met for the first
    time resets the counter and is appended to the list, a category
    already in the list increments the counter. *)
Definition next_increment (seen : list string) (increment : nat)
    (device_name : string) : nat * list string :=
  if bool_decide (device_name ∈ seen) then (S increment, seen)
  else (0, seen ++ [device_name]).

(** The body of the loop over [sensor_information]. *)
Definition sensor_step (st : rstate) (dev : string * string) : result rstate :=
  let '(mujoco_device_name, sensor_type) := dev in
  let device_name := SENSING_TYPES !! sensor_type in
  input ←? getitem (capabilities st) "input";
  match device_name with
  | None => Ok st
  | Some device_name =>
      match input !! device_name with
      | None => Ok st
      | Some indexed =>
          let '(increment, seen) :=
            next_increment (list_to_not_delete_device st) (increment st) device_name in
          let device_id := py_str increment in
          temp ←? (if bool_decide (increment = 0) then getitem indexed device_id
                   else Ok (temp_copy_property_input st));
          let temp := <["custom_name" := VStr mujoco_device_name]> temp in
          let temp := <["feagi_index" := VInt (Z.of_nat increment)]> temp in
          Ok {| capabilities :=
                  <["input" := <[device_name := <[device_id := temp]> indexed]> input]>
                    (capabilities st);
                list_to_not_delete_device := seen;
                increment := increment;
                temp_copy_property_input := temp;
                temp_copy_property_output := temp_copy_property_output st |}
      end
  end.

(** The kind-specific limits written from [range_control]. *)
Definition overwrite_limits (device_name : string) (range_control : Q * Q)
    (temp : entry) : entry :=
  if bool_decide (device_name = "servo") then
    <["min_value" := VFloat range_control.1]>
      (<["max_value" := VFloat range_control.2]> temp)
  else if bool_decide (device_name = "motor") then
    <["rolling_window_len" := VInt 2]>
      (<["max_power" := VFloat range_control.2]> temp)
  else temp.

(** The body of the loop over [actuator_information]. *)
Definition actuator_step (st : rstate) (dev : string * (string * (Q * Q)))
  : result rstate :=
  let '(mujoco_device_name, (actuator_type, range_control)) := dev in
  let device_name := TRANSMISSION_TYPES !! actuator_type in
  output ←? getitem (capabilities st) "output";
  match device_name with
  | None => Ok st
  | Some device_name =>
      match output !! device_name with
      | None => Ok st
      | Some indexed =>
          let '(increment, seen) :=
            next_increment (list_to_not_delete_device st) (increment st) device_name in
          let device_id := py_str increment in
          temp ←? (if bool_decide (increment = 0) then getitem indexed device_id
                   else Ok (temp_copy_property_output st));
          let temp := overwrite_limits device_name range_control temp in
          let temp := <["custom_name" := VStr mujoco_device_name]> temp in
          let temp := <["feagi_index" := VInt (Z.of_nat increment)]> temp in
          Ok {| capabilities :=
                  <["output" := <[device_name := <[device_id := temp]> indexed]> output]>
                    (capabilities st);
                list_to_not_delete_device := seen;
                increment := increment;
                temp_copy_property_input := temp_copy_property_input st;
                temp_copy_property_output := temp |}
      end
  end.

(** A [for] loop whose body may raise. *)
Fixpoint run_loop {S D : Type} (body : S → D → result S) (st : S) (l : list D)
  : result S :=
  match l with
  | [] => Ok st
  | d :: rest => st' ←? body st d; run_loop body st' rest
  end.

(** Lines 239-240: the actuator loop starts from a fresh record and a
    counter of 0, and keeps the list of seen categories. *)
Definition begin_actuators (st : rstate) : rstate :=
  {| capabilities := capabilities st;
     list_to_not_delete_device := list_to_not_delete_device st;
     increment := 0;
     temp_copy_property_input := temp_copy_property_input st;
     temp_copy_property_output := ∅ |}.

(** The inner pruning loop, over the categories of one section of the
    copy: [if device_name not in list_to_not_delete_device: del ...]. *)
Definition prune_section (seen : list string) (temp_section sec : section) : section :=
  map_fold (λ device_name _ sec,
      if bool_decide (device_name ∈ seen) then sec else delete device_name sec)
    sec temp_section.

(** The outer pruning loop, over the sections of the deep copy. *)
Definition prune (seen : list string) (capabilities : caps) : caps :=
  let temp_capabilities := capabilities in
  map_fold (λ I_O temp_section capabilities,
      alter (prune_section seen temp_section) I_O capabilities)
    capabilities temp_capabilities.

(** Lines 220-262: both loops, giving the state before pruning. *)
Definition reconcile_loops (template : caps)
    (sensor_information : list (string * string))
    (actuator_information : list (string * (string * (Q * Q)))) : result rstate :=
  st ←? run_loop sensor_step (initial_state template) sensor_information;
  run_loop actuator_step (begin_actuators st) actuator_information.

(** Lines 220-268: the capabilities written to [test.json]. *)
Definition reconcile (template : caps)
    (sensor_information : list (string * string))
    (actuator_information : list (string * (string * (Q * Q)))) : result caps :=
  st ←? reconcile_loops template sensor_information actuator_information;
  Ok (prune (list_to_not_delete_device st) (capabilities st)).

(** ** The contact-force record *)

(** Lines 291-293. *)
Definition force_list_init : gmap string (list Q) :=
  foldl (λ force_list x, <[py_str x := [0%Q; 0%Q; 0%Q]]> force_list) ∅ (seq 0 20).

(** Lines 472-479, for a step with [ncon] active contacts;
    [mj_contactForce i] is the six-component vector the engine writes for
    contact [i], of which the first three components are kept. *)
Definition sample_contacts (mj_contactForce : nat → list Q) (ncon : nat)
    (force_list : gmap string (list Q)) : gmap string (list Q) :=
  foldl (λ force_list i,
      let obtained_data_from_force := take 3 (mj_contactForce i) in
      <[py_str i := [nth 0 obtained_data_from_force 0%Q;
                     nth 1 obtained_data_from_force 0%Q;
                     nth 2 obtained_data_from_force 0%Q]]> force_list)
    force_list (seq 0 ncon).

(** ** Vocabulary for the statements about the reconciler *)

(** The two fields every recorded device is stamped with (lines 235-236
    and 260-261). *)
Definition stamp (mujoco_device_name : string) (increment : nat) (temp : entry) : entry :=
  <["feagi_index" := VInt (Z.of_nat increment)]>
    (<["custom_name" := VStr mujoco_device_name]> temp).

(** One iteration that took the branch [if device_name in
    capabilities[I_O]]: the index bookkeeping ran and [stored] was written
    at [capabilities[I_O][device_name][str(increment)]]. *)
Definition recorded (I_O device_name : string) (stored : entry) (st st' : rstate) : Prop :=
  ∃ (sec : section) (indexed : category),
    capabilities st !! I_O = Some sec ∧
    sec !! device_name = Some indexed ∧
    (increment st', list_to_not_delete_device st') =
      next_increment (list_to_not_delete_device st) (increment st) device_name ∧
    capabilities st' =
      <[I_O := <[device_name := <[py_str (increment st') := stored]> indexed]> sec]>
        (capabilities st).

(** Two capability structures with the same sections and, in each
    section, the same categories. *)
Definition same_keys (a b : caps) : Prop :=
  (∀ s, is_Some (a !! s) ↔ is_Some (b !! s)) ∧
  (∀ s c, is_Some (get_category a s c) ↔ is_Some (get_category b s c)).

(** How the state may change over any number of iterations of either
    loop: categories are only ever added to the list, no key appears or
    disappears, and a category not in the list still holds what it held. *)
Definition evolves (st st' : rstate) : Prop :=
  (∀ c, c ∈ list_to_not_delete_device st → c ∈ list_to_not_delete_device st') ∧
  same_keys (capabilities st) (capabilities st') ∧
  (∀ s c, c ∉ list_to_not_delete_device st' →
          get_category (capabilities st') s c = get_category (capabilities st) s c).

(** The category and index at which the actuator loop stores a device
    when it meets it in state [st], if it stores it at all. *)
Definition actuator_slot (st : rstate) (dev : string * (string * (Q * Q)))
  : option (string * nat) :=
  match TRANSMISSION_TYPES !! dev.2.1 with
  | Some device_name =>
      match get_category (capabilities st) "output" device_name with
      | Some _ =>
          Some (device_name,
                (next_increment (list_to_not_delete_device st) (increment st)
                   device_name).1)
      | None => None
      end
  | None => None
  end.

(** The slots written by the actuator loop over [l] from state [st], in
    order. *)
Fixpoint actuator_slots (st : rstate) (l : list (string * (string * (Q * Q))))
  : list (string * nat) :=
  match l with
  | [] => []
  | dev :: rest =>
      match actuator_step st dev with
      | Ok st' => option_list (actuator_slot st dev) ++ actuator_slots st' rest
      | Raise _ => []
      end
  end.

(** Category [c] has a discovered device that the reconciler records: a
    sensor or an actuator of the scene whose declared kind maps to [c],
    [c] being a key of the template section of the loop that meets it. *)
Definition discovered (template : caps) (sensor_information : list (string * string))
    (actuator_information : list (string * (string * (Q * Q)))) (c : string) : Prop :=
  (∃ n ty, (n, ty) ∈ sensor_information ∧ SENSING_TYPES !! ty = Some c ∧
           is_Some (get_category template "input" c)) ∨
  (∃ n ty r, (n, (ty, r)) ∈ actuator_information ∧ TRANSMISSION_TYPES !! ty = Some c ∧
             is_Some (get_category template "output" c)).

(** ** A small scene and template *)

(** The result of a computation known to succeed. *)
Definition result_get {A : Type} (default : A) (r : result A) : A :=
  match r with
  | Ok a => a
  | Raise _ => default
  end.

Definition example_entry (custom_name : string) : entry :=
  {[ "custom_name" := VStr custom_name; "feagi_index" := VInt 0;
     "disabled" := VBool false ]}.

Definition example_template : caps :=
  {[ "input" :=
       {[ "gyro" := {[ "0" := example_entry "template_gyro" ]};
          "proximity" :=
            {[ "0" := <["max_value" := VFloat (Qmake 50 1)]>
                        (example_entry "template_proximity") ]};
          "camera" := {[ "0" := example_entry "template_camera" ]} ]};
     "output" :=
       {[ "servo" :=
            {[ "0" := <["max_value" := VFloat (Qmake 180 1)]>
                        (<["min_value" := VFloat (Qmake 0 1)]>
                           (example_entry "template_servo")) ]};
          "motor" :=
            {[ "0" := <["max_power" := VFloat (Qmake 100 1)]>
                        (example_entry "template_motor") ]} ]} ]}.

Definition example_sensors : list (string * string) :=
  [("head_gyro", "framequat"); ("torso_gyro", "framequat"); ("left_foot", "distance");
   ("imu_acc", "accelerometer")].

Definition example_actuators : list (string * (string * (Q * Q))) :=
  [("hip", ("position", (Qmake (-1) 2, Qmake 1 2)));
   ("knee", ("position", (Qmake (-2) 1, Qmake 0 1)));
   ("wheel", ("motor", (Qmake 0 1, Qmake 5 1)));
   ("fan", ("velocity", (Qmake 0 1, Qmake 1 1)))].

Definition example_final : caps :=
  result_get ∅ (reconcile example_template example_sensors example_actuators).

(** Devices met out of category order: two gyros, a proximity sensor,
    then a third gyro; and two servos, a motor, then a third servo. *)
Definition interleaved_sensors : list (string * string) :=
  [("g1", "framequat"); ("g2", "framequat"); ("p1", "distance"); ("g3", "framequat")].

Definition interleaved_actuators : list (string * (string * (Q * Q))) :=
  [("a", ("position", (Qmake (-1) 1, Qmake 1 1)));
   ("b", ("position", (Qmake (-2) 1, Qmake 2 1)));
   ("m", ("motor", (Qmake 0 1, Qmake 5 1)));
   ("c", ("position", (Qmake (-3) 1, Qmake 3 1)))].

(** Lines 196-268 from the loaded model and the parsed scene file: the
    two information dictionaries are built (actuators first), then
    reconciled against the template. *)
Definition generate_capabilities (xml_input xml_output : gmap string string)
    (sensors : list (string * Z)) (actuators : list (string * (Q * Q)))
    (template : caps) : result caps :=
  actuator_information ←? build_actuator_information xml_output actuators [];
  sensor_information ←? build_sensor_information xml_input sensors [];
  reconcile template sensor_information actuator_information.

(** A scene whose sensor section declares two [framequat] sensors, a
    [distance] sensor and a third [framequat] sensor, in that order (raw
    type codes other than 7), and no actuator. *)
Definition interleaved_xml_input : gmap string string :=
  {[ "g1" := "framequat"; "g2" := "framequat"; "p1" := "distance"; "g3" := "framequat" ]}.

Definition interleaved_model_sensors : list (string * Z) :=
  [("g1", 30%Z); ("g2", 30%Z); ("p1", 37%Z); ("g3", 30%Z)].

(** Entry [e] is the record the actuator loop stores for the discovered
    actuator [dev] at category [c] and index string [device_id]: it
    carries the actuator's name, the index, and the limits read from the
    actuator's declared range. *)
Definition actuator_record (dev : string * (string * (Q * Q)))
    (c device_id : string) (e : entry) : Prop :=
  TRANSMISSION_TYPES !! dev.2.1 = Some c ∧
  ∃ (i : nat) (base : entry),
    device_id = py_str i ∧
    e = stamp dev.1 i (overwrite_limits c dev.2.2 base).

(** ** Command line and scene file *)

(** The loop of [check_the_flag] over [sys.argv[1:]]: the flag and the
    argument after it are left out of [cleaned_args]. *)
Fixpoint clean_args (skip_next : bool) (args cleaned_args : list string) : list string :=
  match args with
  | [] => cleaned_args
  | arg :: rest =>
      if skip_next then clean_args false rest cleaned_args
      else if bool_decide (arg = "--model_xml_path") then clean_args true rest cleaned_args
      else clean_args false rest (cleaned_args ++ [arg])
  end.

(** An argument that [parse_known_args] (line 115, before the loop) takes
    as the value of the flag in front of it: one that does not start with
    the option prefix ["-"].  An argument that does is read as another
    option, the flag is left without a value and the parser exits, so the
    loop is never reached.  (The condition is sufficient: the parser also
    takes a lone ["-"] or a negative number.) *)
Definition plain_argument (arg : string) : bool :=
  negb (String.prefix "-" arg).

(** [sys.argv = [sys.argv[0]] + cleaned_args]. *)
Definition cleaned_argv (argv : list string) : result (list string) :=
  let cleaned_args := clean_args false (drop 1 argv) [] in
  match argv with
  | [] => Raise IndexError
  | argv0 :: _ => Ok (argv0 :: cleaned_args)
  end.

(** A child element of the [actuator] or [sensor] section: its tag and
    its [name] attribute, if it has one. *)
Record element : Type := Element {
  tag : string;
  attrib_name : option string
}.

(** The loop over the children of a section, filling the dictionary
    [name -> {'type': tag}] (the record flattened to its tag); a child
    without a [name] attribute goes under the key [None]. *)
Definition section_types (children : list element)
  : gmap (option string) string :=
  foldl (λ d el, <[attrib_name el := tag el]> d) ∅ children.

(** [get_actuators], on the result of [root.find('actuator')]. *)
Definition get_actuators (actuator_section : option (list element))
  : gmap string (gmap (option string) string) :=
  let actuators := {[ "output" := ∅ ]} in
  match actuator_section with
  | Some children => <["output" := section_types children]> actuators
  | None => actuators
  end.

(** [get_sensors], on the result of [root.find('sensor')] and the
    dictionary [get_actuators] returned. *)
Definition get_sensors (sensor_section : option (list element))
    (sensors : gmap string (gmap (option string) string))
  : gmap string (gmap (option string) string) :=
  let sensors := <["input" := ∅]> sensors in
  match sensor_section with
  | Some children => <["input" := section_types children]> sensors
  | None => sensors
  end.

(** The part of a section dictionary that a lookup by a model name (a
    string) can reach. *)
Definition by_name (d : gmap (option string) string) : gmap string string :=
  map_fold (λ k v acc, match k with Some n => <[n := v]> acc | None => acc end) ∅ d.

(** Lines 196-268 from the two sections of the scene file and the loaded
    model. *)
Definition capabilities_of_scene (actuator_section sensor_section : option (list element))
    (sensors : list (string * Z)) (actuators : list (string * (Q * Q)))
    (template : caps) : result caps :=
  let xml_actuators_type := get_sensors sensor_section (get_actuators actuator_section) in
  xml_output ←? getitem xml_actuators_type "output";
  xml_input ←? getitem xml_actuators_type "input";
  generate_capabilities (by_name xml_input) (by_name xml_output) sensors actuators template.

(** ** Vocabulary for the further statements *)

(** The categories the two lookup tables map to. *)
Definition sensor_categories : list string := ["gyro"; "proximity"; "camera"].
Definition actuator_categories : list string := ["servo"; "motor"].

(** Every category of every section of the template has an entry at
    index ["0"], and both sections are there. *)
Definition template_ready (template : caps) : Prop :=
  is_Some (template !! "input") ∧ is_Some (template !! "output") ∧
  map_Forall (λ _ (sec : section),
      map_Forall (λ _ (indexed : category), is_Some (indexed !! "0")) sec)
    template.

(** The three kept components of the sample of contact [i]. *)
Definition contact_sample (mj_contactForce : nat → list Q) (i : nat) : list Q :=
  [nth 0 (take 3 (mj_contactForce i)) 0%Q;
   nth 1 (take 3 (mj_contactForce i)) 0%Q;
   nth 2 (take 3 (mj_contactForce i)) 0%Q].

(** The descriptor names of the model's sensors, in model order. *)
Definition descriptor_names (sensors : list (string * Z)) : list string :=
  (λ s, descriptor_name s.1 s.2) <$> sensors.

(** Entry [e] is the record the sensor loop stores for the discovered
    sensor [dev] at category [c] and index string [device_id]. *)
Definition sensor_record (dev : string * string) (c device_id : string) (e : entry) : Prop :=
  SENSING_TYPES !! dev.2 = Some c ∧
  ∃ (i : nat) (base : entry), device_id = py_str i ∧ e = stamp dev.1 i base.

(** Two states in which the actuator loop behaves alike: the same output
    section, counter and carried record, and the same actuator categories
    in the list. *)
Definition actuator_view (st1 st2 : rstate) : Prop :=
  capabilities st1 !! "output" = capabilities st2 !! "output" ∧
  (∀ c, c ∈ actuator_categories →
        (c ∈ list_to_not_delete_device st1 ↔ c ∈ list_to_not_delete_device st2)) ∧
  increment st1 = increment st2 ∧
  temp_copy_property_output st1 = temp_copy_property_output st2.

(** The contact-force record after the iterations [steps] of the runtime
    loop, each given by the engine's contact forces and the number of
    active contacts of that iteration. *)
Definition force_list_after (steps : list ((nat → list Q) * nat))
  : gmap string (list Q) :=
  foldl (λ force_list step, sample_contacts step.1 step.2 force_list)
    force_list_init steps.

(** The keys [str(0)], ..., [str(m - 1)]. *)
Definition index_keys (m : nat) : gset string := list_to_set (py_str <$> seq 0 m).

(** * Properties *)

(** Closed goals are settled by evaluation in the virtual machine: an
    equation between closed terms, or a decidable closed proposition. *)
Ltac vm_refl :=
  lazymatch goal with
  | |- ?x = ?y => vm_cast_no_check (eq_refl y)
  end.

Ltac vm_decide := apply (bool_decide_unpack _); vm_cast_no_check I.

(** ** The exception monad and [str] *)

Lemma rbind_Ok {A B : Type} (r : result A) (k : A → result B) (b : B) :
  rbind r k = Ok b → ∃ a, r = Ok a ∧ k a = Ok b.
Proof. destruct r as [a|e]; simpl; [eauto | discriminate]. Qed.

Lemma getitem_Ok {V : Type} (d : gmap string V) (k : string) (v : V) :
  getitem d k = Ok v ↔ d !! k = Some v.
Proof. unfold getitem. destruct (d !! k); split; congruence. Qed.

Lemma py_str_inj (i j : nat) : py_str i = py_str j → i = j.
Proof. apply pretty_nat_inj. Qed.

(** ** [action] *)

Section action_facts.
Implicit Types (d : gmap Z Q) (ctrl : list Q).

Lemma ctrl_setitem_in_range ctrl (k : Z) (v : Q) :
  (0 ≤ k)%Z → (k ≤ Z.of_nat (length ctrl) - 1)%Z →
  ctrl_setitem ctrl k v = Ok (<[Z.to_nat k := v]> ctrl).
Proof.
  intros Hk Hn. unfold ctrl_setitem.
  rewrite bool_decide_eq_true_2 by done.
  by rewrite bool_decide_eq_true_2 by lia.
Qed.

Lemma map_fold_action_item d ctrl :
  map_Forall (λ k _, (0 ≤ k)%Z) d →
  loop_post d ctrl (map_fold action_item (Ok ctrl) d).
Proof.
  revert d. apply (map_fold_weak_ind (λ r d,
    map_Forall (λ k _, (0 ≤ k)%Z) d → loop_post d ctrl r)).
  - intros _. exists ctrl. split_and!; [done..|].
    intros i _. by rewrite lookup_empty.
  - intros k v d r Hfresh IH Hall.
    apply map_Forall_insert in Hall as [Hk Hall]; [|done].
    destruct (IH Hall) as (c & -> & Hlen & Hc). simpl.
    case_bool_decide as Hin.
    + rewrite ctrl_setitem_in_range by done.
      eexists. split; [done|]. split; [by rewrite length_insert|].
      intros i Hi. destruct (decide (i = Z.to_nat k)) as [->|Hne].
      * rewrite Z2Nat.id, lookup_insert_eq by done.
        apply list_lookup_insert_eq. lia.
      * rewrite list_lookup_insert_ne, lookup_insert_ne by lia. auto.
    + exists c. split_and!; [done..|].
      intros i Hi. rewrite lookup_insert_ne by lia. auto.
Qed.

Lemma action_loop_post d ctrl :
  map_Forall (λ k _, (0 ≤ k)%Z) d → loop_post d ctrl (action_loop d ctrl).
Proof.
  intros Hall. unfold action_loop. case_bool_decide as He.
  - subst d. exists ctrl. split_and!; [done..|].
    intros i _. by rewrite lookup_empty.
  - by apply map_fold_action_item.
Qed.
End action_facts.

(** The part of C6 that the code keeps: for every inbound command batch
    whose channel indices are non-negative, [action] raises nothing,
    keeps the number of control slots, sets each slot whose index is
    listed and below the actuator count (the value of [recieve_servo_data] winning over that of
    [recieve_servo_position_data], which is applied first), and leaves
    every other slot unchanged; indices at or above the actuator count
    are ignored. *)
Theorem action_sets_listed_slots
    (recieve_servo_position_data recieve_servo_data : gmap Z Q) (ctrl : list Q) :
  map_Forall (λ k _, (0 ≤ k)%Z) recieve_servo_position_data →
  map_Forall (λ k _, (0 ≤ k)%Z) recieve_servo_data →
  ∃ ctrl', action recieve_servo_position_data recieve_servo_data ctrl = Ok ctrl' ∧
    length ctrl' = length ctrl ∧
    ∀ i : nat, i < length ctrl →
      ctrl' !! i =
        match recieve_servo_data !! Z.of_nat i with
        | Some new_power => Some new_power
        | None =>
            match recieve_servo_position_data !! Z.of_nat i with
            | Some power => Some power
            | None => ctrl !! i
            end
        end.
Proof.
  intros Hpos Hservo. unfold action.
  destruct (action_loop_post _ ctrl Hpos) as (c1 & -> & Hlen1 & H1). simpl.
  destruct (action_loop_post _ c1 Hservo) as (c2 & -> & Hlen2 & H2).
  exists c2. split; [done|]. split; [congruence|].
  intros i Hi. rewrite H2 by lia. destruct (recieve_servo_data !! _); [done|].
  by apply H1.
Qed.

(** On three slots and the batch [{0: 0.5, 2: 1.0, 5: 0.75}]. *)
Lemma action_sets_listed_slots_witness :
  ∃ ctrl', action ∅ {[ 0%Z := Qmake 1 2; 2%Z := 1%Q; 5%Z := Qmake 3 4 ]} [0%Q; Qmake 7 10; 0%Q] = Ok ctrl' ∧
    length ctrl' = 3 ∧
    ∀ i : nat, i < 3 →
      ctrl' !! i =
        match ({[ 0%Z := Qmake 1 2; 2%Z := 1%Q; 5%Z := Qmake 3 4 ]} : gmap Z Q) !! Z.of_nat i with
        | Some new_power => Some new_power
        | None =>
            match (∅ : gmap Z Q) !! Z.of_nat i with
            | Some power => Some power
            | None => [0%Q; Qmake 7 10; 0%Q] !! i
            end
        end.
Proof.
  apply (action_sets_listed_slots ∅ {[ 0%Z := Qmake 1 2; 2%Z := 1%Q; 5%Z := Qmake 3 4 ]} [0%Q; Qmake 7 10; 0%Q]).
  - vm_decide.
  - vm_decide.
Defined.

(** The batch [{0: 0.5, 2: 1.0}] on three slots sets slots 0 and 2 and
    leaves slot 1; index 5 on three slots is ignored. *)
Example action_example :
  action ∅ {[ 0%Z := Qmake 1 2; 2%Z := 1%Q ]} [0%Q; Qmake 7 10; 0%Q] = Ok [Qmake 1 2; Qmake 7 10; 1%Q]
  ∧ action ∅ {[ 5%Z := Qmake 1 2 ]} [0%Q; Qmake 7 10; 0%Q] = Ok [0%Q; Qmake 7 10; 0%Q].
Proof. split; vm_compute; reflexivity. Qed.

(** C6 (what the code does on a channel index below zero, against three
    control slots): the guard [len(data.ctrl) - 1 >= servo_number] bounds
    the index from above only, so an out-of-range index is not always
    ignored.  The batch [{-4: 0.5}], in either dictionary, raises
    [IndexError]; the batch [{-1: 0.5}] is not ignored either but
    overwrites the last slot; the batch [{5: 0.5}] is ignored, as C6
    says. *)
Theorem action_negative_index_not_ignored :
  action {[ (-4)%Z := Qmake 1 2 ]} ∅ [0%Q; Qmake 7 10; 0%Q] = Raise IndexError ∧
  action ∅ {[ (-4)%Z := Qmake 1 2 ]} [0%Q; Qmake 7 10; 0%Q] = Raise IndexError ∧
  action {[ (-1)%Z := Qmake 1 2 ]} ∅ [0%Q; Qmake 7 10; 0%Q]
    = Ok [0%Q; Qmake 7 10; Qmake 1 2] ∧
  action {[ 5%Z := Qmake 1 2 ]} ∅ [0%Q; Qmake 7 10; 0%Q] = Ok [0%Q; Qmake 7 10; 0%Q].
Proof. split_and!; vm_refl. Qed.

(** The guard of [action] bounds the index from above only: a negative
    index passes it and is resolved from the end of the array, or raises
    when it is below [-len]. *)
Example action_negative_index :
  action ∅ {[ (-1)%Z := Qmake 1 2 ]} [0%Q; Qmake 7 10; 0%Q] = Ok [0%Q; Qmake 7 10; Qmake 1 2]
  ∧ action ∅ {[ (-4)%Z := Qmake 1 2 ]} [0%Q; Qmake 7 10; 0%Q] = Raise IndexError.
Proof. split; vm_compute; reflexivity. Qed.

(** ** Scene introspection *)

Section introspection_facts.

Lemma string_length_app (a b : string) :
  String.length (a +:+ b) = String.length a + String.length b.
Proof. induction a as [|ch a IH]; simpl; [done | by rewrite IH]. Qed.

Lemma substring_app_prefix (a b : string) :
  String.substring 0 (String.length a) (a +:+ b) = a.
Proof.
  induction a as [|ch a IH]; simpl.
  - by destruct b.
  - by rewrite IH.
Qed.

Lemma strip_last4_app (base suffix : string) :
  String.length suffix = 4 → strip_last4 (base +:+ suffix) = base.
Proof.
  intros Hlen. unfold strip_last4.
  rewrite string_length_app, Hlen.
  replace (String.length base + 4 - 4) with (String.length base) by lia.
  apply substring_app_prefix.
Qed.

Context {V : Type}.
Implicit Types (d : list (string * V)) (k : string).

Lemma dict_set_keys k (v : V) d :
  ∀ k', k' ∈ (dict_set k v d).*1 ↔ k' = k ∨ k' ∈ d.*1.
Proof.
  induction d as [|[k0 v0] d IH]; intros k'; simpl.
  - rewrite elem_of_cons. tauto.
  - case_bool_decide as Hk; simpl.
    + subst k0. rewrite !elem_of_cons. tauto.
    + rewrite !elem_of_cons, IH. tauto.
Qed.

Lemma dict_set_NoDup k (v : V) d : NoDup d.*1 → NoDup (dict_set k v d).*1.
Proof.
  induction d as [|[k0 v0] d IH]; simpl; intros Hnd.
  - apply NoDup_singleton.
  - apply list.NoDup_cons in Hnd as [Hk0 Hnd].
    case_bool_decide as Hk; simpl.
    + subst k0. by apply list.NoDup_cons.
    + apply list.NoDup_cons. split; [|by apply IH].
      rewrite dict_set_keys. intros [Heq|Hin]; [by subst | done].
Qed.
End introspection_facts.

Lemma build_sensor_information_keys (xml_input : gmap string string)
    (sensors : list (string * Z)) (info0 info : list (string * string)) :
  build_sensor_information xml_input sensors info0 = Ok info →
  (NoDup info0.*1 → NoDup info.*1) ∧
  (∀ k, k ∈ info0.*1 → k ∈ info.*1) ∧
  (∀ name ty, (name, ty) ∈ sensors → descriptor_name name ty ∈ info.*1).
Proof.
  revert info0. induction sensors as [|[name ty] rest IH]; intros info0 Hrun; simpl in Hrun.
  - injection Hrun as <-. split_and!; [done..|]. intros ?? Hin. by apply elem_of_nil in Hin.
  - apply rbind_Ok in Hrun as (sensor_type & _ & Hrest).
    destruct (IH _ Hrest) as (Hnd & Hmono & Hcov). split_and!.
    + intros H0. by apply Hnd, dict_set_NoDup.
    + intros k Hk. apply Hmono, dict_set_keys. by right.
    + intros n t Hin. apply elem_of_cons in Hin as [Heq|Hin]; [|by apply Hcov].
      injection Heq as -> ->. apply Hmono, dict_set_keys. by left.
Qed.

(** C7 (amended): a sensor of raw type 7 is described under its declared
    name without the last four characters, whatever they are, so
    [head_gyro_abcd] gives [head_gyro_] (the underscore stays) and
    [head_gyroabcd] gives [head_gyro]; the descriptors are keyed by that
    name, one per distinct derived name, and every sensor of the model
    has its descriptor. *)
Theorem quaternion_descriptor_name :
  (∀ base suffix : string,
      String.length suffix = 4 → descriptor_name (base +:+ suffix) 7 = base) ∧
  descriptor_name "head_gyro_abcd" 7 = "head_gyro_" ∧
  descriptor_name "head_gyroabcd" 7 = "head_gyro" ∧
  (∀ (xml_input : gmap string string) (sensors : list (string * Z))
     (sensor_information : list (string * string)),
      build_sensor_information xml_input sensors [] = Ok sensor_information →
      NoDup sensor_information.*1 ∧
      ∀ name ty, (name, ty) ∈ sensors →
                 descriptor_name name ty ∈ sensor_information.*1).
Proof.
  split_and!.
  - intros base suffix Hlen. unfold descriptor_name. simpl. by apply strip_last4_app.
  - reflexivity.
  - reflexivity.
  - intros xml_input sensors info Hrun.
    destruct (build_sensor_information_keys _ _ _ _ Hrun) as (Hnd & _ & Hcov).
    split; [apply Hnd; constructor | done].
Qed.

(** C7 as stated fails: the descriptor name of [head_gyro_abcd] is not
    [head_gyro]. *)
Lemma quaternion_descriptor_name_counterexample :
  descriptor_name "head_gyro_abcd" 7 ≠ "head_gyro".
Proof. vm_compute. discriminate. Qed.

(** ** The contact-force record *)

Section force_facts.
Context {V : Type}.

(** Both loops over [range(n)] store at key [str(i)]. *)
Lemma foldl_store_lookup (g : nat → V) (n : nat) (m0 : gmap string V) :
  (∀ i, i < n →
        foldl (λ m i, <[py_str i := g i]> m) m0 (seq 0 n) !! py_str i = Some (g i)) ∧
  (∀ k, (∀ i, i < n → k ≠ py_str i) →
        foldl (λ m i, <[py_str i := g i]> m) m0 (seq 0 n) !! k = m0 !! k).
Proof.
  induction n as [|n [IHin IHout]].
  - split; [lia | done].
  - rewrite seq_S, foldl_snoc. simpl. split.
    + intros i Hi. destruct (decide (i = n)) as [->|Hne].
      * by rewrite lookup_insert_eq.
      * rewrite lookup_insert_ne; [apply IHin; lia|].
        intros Heq. by apply py_str_inj in Heq.
    + intros k Hk. rewrite lookup_insert_ne; [|intros Heq; by apply (Hk n); [lia|]].
      apply IHout. intros i Hi. apply Hk. lia.
Qed.
End force_facts.

(** C3 (amended): the record starts with the 20 keys ["0"] to ["19"];
    a step with [ncon] active contacts stores the sample of every contact
    [i < ncon] at key [str(i)], whether or not [i] is below 20, and
    leaves every other key as it was.  Nothing raises: the function is
    total. *)
Theorem contact_samples_recorded (mj_contactForce : nat → list Q) (ncon : nat)
    (force_list : gmap string (list Q)) :
  let sample i := [nth 0 (take 3 (mj_contactForce i)) 0%Q;
                   nth 1 (take 3 (mj_contactForce i)) 0%Q;
                   nth 2 (take 3 (mj_contactForce i)) 0%Q] in
  size force_list_init = 20 ∧
  (∀ x, x < 20 → force_list_init !! py_str x = Some [0%Q; 0%Q; 0%Q]) ∧
  (∀ i, i < ncon →
        sample_contacts mj_contactForce ncon force_list !! py_str i = Some (sample i)) ∧
  (∀ k, (∀ i, i < ncon → k ≠ py_str i) →
        sample_contacts mj_contactForce ncon force_list !! k = force_list !! k).
Proof.
  intros sample. split_and!.
  - vm_compute. reflexivity.
  - apply (foldl_store_lookup (λ _, [0%Q; 0%Q; 0%Q]) 20 ∅).
  - apply (foldl_store_lookup sample ncon force_list).
  - apply (foldl_store_lookup sample ncon force_list).
Qed.

(** C3 as stated fails: with 21 active contacts the sample of contact 20
    is recorded under a new key and the record holds 21 entries. *)
Lemma contact_samples_recorded_counterexample :
  let mj_contactForce (i : nat) := [Qmake 1 1; Qmake 2 1; Qmake 3 1; 0%Q; 0%Q; 0%Q] in
  force_list_init !! py_str 20 = None ∧
  sample_contacts mj_contactForce 21 force_list_init !! py_str 20
    = Some [Qmake 1 1; Qmake 2 1; Qmake 3 1] ∧
  size (sample_contacts mj_contactForce 21 force_list_init) = 21.
Proof. vm_compute. done. Qed.

(** ** The reconciler: one iteration *)

Section accessors.
Implicit Types (a : caps) (sec : section).

Lemma get_category_insert a s sec s' c :
  get_category (<[s := sec]> a) s' c =
    if decide (s = s') then sec !! c else get_category a s' c.
Proof. unfold get_category. rewrite lookup_insert. by case_decide. Qed.

Lemma get_category_Some a s c (indexed : category) :
  get_category a s c = Some indexed ↔
  ∃ sec, a !! s = Some sec ∧ sec !! c = Some indexed.
Proof.
  unfold get_category. destruct (a !! s) as [sec|]; split.
  - eauto.
  - by intros (? & [= <-] & ?).
  - done.
  - by intros (? & ? & ?).
Qed.

Lemma get_entry_Some a s c i (e : entry) :
  get_entry a s c i = Some e ↔
  ∃ indexed, get_category a s c = Some indexed ∧ indexed !! i = Some e.
Proof.
  unfold get_entry. destruct (get_category a s c) as [indexed|]; split.
  - eauto.
  - by intros (? & [= <-] & ?).
  - done.
  - by intros (? & ? & ?).
Qed.

Lemma same_keys_refl a : same_keys a a.
Proof. by split. Qed.

Lemma same_keys_trans a b c : same_keys a b → same_keys b c → same_keys a c.
Proof.
  intros [H1 H2] [H3 H4]. split.
  - intros s. by rewrite H1.
  - intros s k. by rewrite H2.
Qed.
End accessors.

Section recorded_facts.
Context (I_O device_name : string) (stored : entry) (st st' : rstate).
Hypothesis Hrec : recorded I_O device_name stored st st'.

Lemma recorded_in_section :
  is_Some (get_category (capabilities st) I_O device_name).
Proof.
  destruct Hrec as (sec & indexed & Hsec & Hcat & _).
  exists indexed. apply get_category_Some. eauto.
Qed.

Lemma recorded_seen c :
  c ∈ list_to_not_delete_device st' ↔
  c ∈ list_to_not_delete_device st ∨ c = device_name.
Proof.
  destruct Hrec as (sec & indexed & _ & _ & Hnext & _).
  unfold next_increment in Hnext. case_bool_decide as Hin.
  - injection Hnext as _ ->. split; [by left|]. by intros [?| ->].
  - injection Hnext as _ ->. rewrite elem_of_app, list_elem_of_singleton. tauto.
Qed.

Lemma recorded_first :
  device_name ∉ list_to_not_delete_device st → increment st' = 0.
Proof.
  destruct Hrec as (sec & indexed & _ & _ & Hnext & _).
  unfold next_increment in Hnext. intros Hnew.
  rewrite bool_decide_eq_false_2 in Hnext by done. by injection Hnext.
Qed.

Lemma recorded_again :
  device_name ∈ list_to_not_delete_device st → increment st' = S (increment st).
Proof.
  destruct Hrec as (sec & indexed & _ & _ & Hnext & _).
  unfold next_increment in Hnext. intros Hold.
  rewrite bool_decide_eq_true_2 in Hnext by done. by injection Hnext.
Qed.

Lemma recorded_index :
  increment st' =
    (next_increment (list_to_not_delete_device st) (increment st) device_name).1.
Proof.
  destruct Hrec as (sec & indexed & _ & _ & Hnext & _). by rewrite <- Hnext.
Qed.

Lemma recorded_get_category s c :
  get_category (capabilities st') s c =
    if decide (s = I_O ∧ c = device_name)
    then (λ indexed : category, <[py_str (increment st') := stored]> indexed)
           <$> get_category (capabilities st) I_O device_name
    else get_category (capabilities st) s c.
Proof.
  destruct Hrec as (sec & indexed & Hsec & Hcat & _ & ->).
  rewrite get_category_insert.
  assert (get_category (capabilities st) I_O device_name = Some indexed) as Hget.
  { apply get_category_Some. eauto. }
  destruct (decide (I_O = s)) as [<-|Hs].
  - rewrite lookup_insert. destruct (decide (device_name = c)) as [<-|Hc].
    + rewrite decide_True by done. by rewrite Hget.
    + rewrite decide_False by (intros [_ ?]; congruence).
      unfold get_category. by rewrite Hsec.
  - rewrite decide_False by (intros [? _]; congruence). done.
Qed.

Lemma recorded_get_entry s c i :
  get_entry (capabilities st') s c i =
    if decide (s = I_O ∧ c = device_name ∧ i = py_str (increment st'))
    then Some stored
    else get_entry (capabilities st) s c i.
Proof.
  unfold get_entry. rewrite recorded_get_category.
  destruct recorded_in_section as [indexed Hget].
  destruct (decide (s = I_O ∧ c = device_name)) as [[-> ->]|Hne].
  - rewrite Hget. simpl. rewrite lookup_insert.
    destruct (decide (py_str (increment st') = i)) as [<-|Hi].
    + by rewrite decide_True.
    + rewrite decide_False; [done|]. intros (_ & _ & ?). congruence.
  - rewrite decide_False; [done|]. intros (? & ? & _). by apply Hne.
Qed.

Lemma recorded_stored :
  get_entry (capabilities st') I_O device_name (py_str (increment st')) = Some stored.
Proof. rewrite recorded_get_entry. by rewrite decide_True. Qed.

Lemma recorded_same_keys : same_keys (capabilities st) (capabilities st').
Proof.
  split.
  - intros s. destruct Hrec as (sec & indexed & Hsec & _ & _ & ->).
    rewrite lookup_insert. case_decide as Hs; [subst s|done].
    rewrite Hsec. split; eauto.
  - intros s c. rewrite recorded_get_category.
    case_decide as Hsc; [|done]. destruct Hsc as [-> ->].
    destruct recorded_in_section as [indexed ->]. simpl. split; eauto.
Qed.

Lemma recorded_evolves : evolves st st'.
Proof.
  split; [|split].
  - intros c Hc. apply recorded_seen. by left.
  - apply recorded_same_keys.
  - intros s c Hc. rewrite recorded_get_category.
    rewrite decide_False; [done|]. intros [_ ->].
    apply Hc, recorded_seen. by right.
Qed.
End recorded_facts.

Lemma evolves_refl st : evolves st st.
Proof. split; [done|]. split; [apply same_keys_refl | done]. Qed.

Lemma evolves_trans a b c : evolves a b → evolves b c → evolves a c.
Proof.
  intros (Hs1 & Hk1 & Hu1) (Hs2 & Hk2 & Hu2). split; [|split].
  - auto.
  - by eapply same_keys_trans.
  - intros s k Hk. rewrite Hu2 by done. apply Hu1. auto.
Qed.

(** What a successful iteration of the sensor loop did. *)
Lemma sensor_step_inv st mujoco_device_name sensor_type st' :
  sensor_step st (mujoco_device_name, sensor_type) = Ok st' →
  is_Some (capabilities st !! "input") ∧
  ((st' = st ∧
    ∀ c, SENSING_TYPES !! sensor_type = Some c →
         get_category (capabilities st) "input" c = None)
   ∨
   ∃ c base,
     SENSING_TYPES !! sensor_type = Some c ∧
     recorded "input" c (stamp mujoco_device_name (increment st') base) st st' ∧
     temp_copy_property_input st' = stamp mujoco_device_name (increment st') base ∧
     temp_copy_property_output st' = temp_copy_property_output st ∧
     (if bool_decide (increment st' = 0)
      then get_entry (capabilities st) "input" c (py_str 0) = Some base
      else base = temp_copy_property_input st)).
Proof.
  unfold sensor_step. intros Hstep.
  apply rbind_Ok in Hstep as (input & Hinput & Hstep).
  apply getitem_Ok in Hinput. split; [eauto|].
  destruct (SENSING_TYPES !! sensor_type) as [c|] eqn:Hc.
  2:{ injection Hstep as <-. left. split; [done|]. intros ? [=]. }
  destruct (input !! c) as [indexed|] eqn:Hcat.
  2:{ injection Hstep as <-. left. split; [done|]. intros ? [= <-].
      unfold get_category. by rewrite Hinput. }
  destruct (next_increment _ _ c) as [inc seen] eqn:Hnext.
  apply rbind_Ok in Hstep as (base & Hbase & Hstep).
  injection Hstep as <-. simpl. right. exists c, base.
  split; [done|]. split.
  { exists input, indexed. simpl. by rewrite Hnext. }
  split; [done|]. split; [done|].
  case_bool_decide as Hinc.
  - subst inc. apply getitem_Ok in Hbase. apply get_entry_Some.
    exists indexed. split; [|done]. apply get_category_Some. eauto.
  - by injection Hbase.
Qed.

(** What a successful iteration of the actuator loop did. *)
Lemma actuator_step_inv st mujoco_device_name actuator_type range_control st' :
  actuator_step st (mujoco_device_name, (actuator_type, range_control)) = Ok st' →
  is_Some (capabilities st !! "output") ∧
  ((st' = st ∧
    ∀ c, TRANSMISSION_TYPES !! actuator_type = Some c →
         get_category (capabilities st) "output" c = None)
   ∨
   ∃ c base,
     TRANSMISSION_TYPES !! actuator_type = Some c ∧
     recorded "output" c
       (stamp mujoco_device_name (increment st') (overwrite_limits c range_control base))
       st st' ∧
     temp_copy_property_output st' =
       stamp mujoco_device_name (increment st') (overwrite_limits c range_control base) ∧
     temp_copy_property_input st' = temp_copy_property_input st ∧
     (if bool_decide (increment st' = 0)
      then get_entry (capabilities st) "output" c (py_str 0) = Some base
      else base = temp_copy_property_output st)).
Proof.
  unfold actuator_step. intros Hstep.
  apply rbind_Ok in Hstep as (output & Houtput & Hstep).
  apply getitem_Ok in Houtput. split; [eauto|].
  destruct (TRANSMISSION_TYPES !! actuator_type) as [c|] eqn:Hc.
  2:{ injection Hstep as <-. left. split; [done|]. intros ? [=]. }
  destruct (output !! c) as [indexed|] eqn:Hcat.
  2:{ injection Hstep as <-. left. split; [done|]. intros ? [= <-].
      unfold get_category. by rewrite Houtput. }
  destruct (next_increment _ _ c) as [inc seen] eqn:Hnext.
  apply rbind_Ok in Hstep as (base & Hbase & Hstep).
  injection Hstep as <-. simpl. right. exists c, base.
  split; [done|]. split.
  { exists output, indexed. simpl. by rewrite Hnext. }
  split; [done|]. split; [done|].
  case_bool_decide as Hinc.
  - subst inc. apply getitem_Ok in Hbase. apply get_entry_Some.
    exists indexed. split; [|done]. apply get_category_Some. eauto.
  - by injection Hbase.
Qed.

(** ** The reconciler: the loops *)

Lemma run_loop_app {S D : Type} (body : S → D → result S) (st : S) (l1 l2 : list D) :
  run_loop body st (l1 ++ l2) = (st' ←? run_loop body st l1; run_loop body st' l2).
Proof.
  revert st. induction l1 as [|d l1 IH]; intros st; simpl; [done|].
  destruct (body st d) as [st1|e]; simpl; [apply IH | done].
Qed.

Lemma run_loop_cons {S D : Type} (body : S → D → result S) (st : S) d (l : list D) :
  run_loop body st (d :: l) = (st' ←? body st d; run_loop body st' l).
Proof. done. Qed.

(** A relation that every successful iteration respects, and that is
    reflexive and transitive, holds across the loop. *)
Lemma run_loop_preserves {S D : Type} (body : S → D → result S) (R : S → S → Prop) :
  (∀ st, R st st) →
  (∀ a b c, R a b → R b c → R a c) →
  (∀ st d st', body st d = Ok st' → R st st') →
  ∀ l st st', run_loop body st l = Ok st' → R st st'.
Proof.
  intros Hrefl Htrans Hstep. induction l as [|d l IH]; intros st st' Hrun; simpl in Hrun.
  - injection Hrun as <-. apply Hrefl.
  - apply rbind_Ok in Hrun as (st1 & Hd & Hrest). eauto.
Qed.

Lemma sensor_step_evolves st dev st' : sensor_step st dev = Ok st' → evolves st st'.
Proof.
  destruct dev as [n ty]. intros Hstep.
  apply sensor_step_inv in Hstep as [_ [[-> _]|(c & base & _ & Hrec & _)]].
  - apply evolves_refl.
  - by eapply recorded_evolves.
Qed.

Lemma actuator_step_evolves st dev st' : actuator_step st dev = Ok st' → evolves st st'.
Proof.
  destruct dev as [n [ty r]]. intros Hstep.
  apply actuator_step_inv in Hstep as [_ [[-> _]|(c & base & _ & Hrec & _)]].
  - apply evolves_refl.
  - by eapply recorded_evolves.
Qed.

Lemma run_sensors_evolves l st st' :
  run_loop sensor_step st l = Ok st' → evolves st st'.
Proof.
  apply run_loop_preserves;
    eauto using evolves_refl, evolves_trans, sensor_step_evolves.
Qed.

Lemma run_actuators_evolves l st st' :
  run_loop actuator_step st l = Ok st' → evolves st st'.
Proof.
  apply run_loop_preserves;
    eauto using evolves_refl, evolves_trans, actuator_step_evolves.
Qed.

Lemma begin_actuators_evolves st : evolves st (begin_actuators st).
Proof. split; [done|]. split; [apply same_keys_refl | done]. Qed.

Lemma reconcile_loops_inv template sensor_information actuator_information st :
  reconcile_loops template sensor_information actuator_information = Ok st →
  ∃ st0, run_loop sensor_step (initial_state template) sensor_information = Ok st0 ∧
         run_loop actuator_step (begin_actuators st0) actuator_information = Ok st.
Proof. unfold reconcile_loops. intros H. by apply rbind_Ok in H. Qed.

Lemma reconcile_loops_evolves template sensor_information actuator_information st :
  reconcile_loops template sensor_information actuator_information = Ok st →
  evolves (initial_state template) st.
Proof.
  intros (st0 & Hs & Ha)%reconcile_loops_inv.
  eapply evolves_trans; [by eapply run_sensors_evolves|].
  eapply evolves_trans; [apply begin_actuators_evolves|].
  by eapply run_actuators_evolves.
Qed.

(** Every category in the list was put there by a device of the loop
    whose category is a key of the section. *)
Lemma run_sensors_seen l : ∀ st st',
  run_loop sensor_step st l = Ok st' →
  ∀ c, c ∈ list_to_not_delete_device st' →
    c ∈ list_to_not_delete_device st ∨
    ∃ n ty, (n, ty) ∈ l ∧ SENSING_TYPES !! ty = Some c ∧
            is_Some (get_category (capabilities st) "input" c).
Proof.
  induction l as [|[n ty] l IH]; intros st st' Hrun c Hc.
  - injection Hrun as <-. by left.
  - rewrite run_loop_cons in Hrun. apply rbind_Ok in Hrun as (st1 & Hd & Hrest).
    pose proof (sensor_step_evolves _ _ _ Hd) as (_ & [_ Hkeys] & _).
    destruct (IH _ _ Hrest c Hc) as [Hc1|(n' & ty' & Hin & Hty & Hsome)].
    + apply sensor_step_inv in Hd as [_ [[-> _]|(c' & base & Hty & Hrec & _)]];
        [by left|].
      apply (recorded_seen _ _ _ _ _ Hrec) in Hc1 as [?| ->]; [by left|].
      right. exists n, ty. split; [by left|]. split; [done|].
      by eapply recorded_in_section.
    + right. exists n', ty'. split; [by right|]. split; [done|]. by apply Hkeys.
Qed.

Lemma run_actuators_seen l : ∀ st st',
  run_loop actuator_step st l = Ok st' →
  ∀ c, c ∈ list_to_not_delete_device st' →
    c ∈ list_to_not_delete_device st ∨
    ∃ n ty r, (n, (ty, r)) ∈ l ∧ TRANSMISSION_TYPES !! ty = Some c ∧
              is_Some (get_category (capabilities st) "output" c).
Proof.
  induction l as [|[n [ty r]] l IH]; intros st st' Hrun c Hc.
  - injection Hrun as <-. by left.
  - rewrite run_loop_cons in Hrun. apply rbind_Ok in Hrun as (st1 & Hd & Hrest).
    pose proof (actuator_step_evolves _ _ _ Hd) as (_ & [_ Hkeys] & _).
    destruct (IH _ _ Hrest c Hc) as [Hc1|(n' & ty' & r' & Hin & Hty & Hsome)].
    + apply actuator_step_inv in Hd as [_ [[-> _]|(c' & base & Hty & Hrec & _)]];
        [by left|].
      apply (recorded_seen _ _ _ _ _ Hrec) in Hc1 as [?| ->]; [by left|].
      right. exists n, ty, r. split; [by left|]. split; [done|].
      by eapply recorded_in_section.
    + right. exists n', ty', r'. split; [by right|]. split; [done|]. by apply Hkeys.
Qed.

(** A category is in the list after both loops only if a device was
    discovered for it. *)
Lemma reconcile_loops_seen template sensor_information actuator_information st c :
  reconcile_loops template sensor_information actuator_information = Ok st →
  c ∈ list_to_not_delete_device st →
  discovered template sensor_information actuator_information c.
Proof.
  intros (st0 & Hs & Ha)%reconcile_loops_inv Hc.
  destruct (run_actuators_seen _ _ _ Ha c Hc) as [Hc0|(n & ty & r & Hin & Hty & Hsome)].
  - destruct (run_sensors_seen _ _ _ Hs c Hc0) as [Hnil|(n & ty & Hin & Hty & Hsome)].
    + by apply elem_of_nil in Hnil.
    + left. eauto.
  - right. exists n, ty, r. split; [done|]. split; [done|].
    apply run_sensors_evolves in Hs as (_ & [_ Hkeys] & _). by apply Hkeys.
Qed.

(** ** Pruning *)

Lemma prune_section_lookup (seen : list string) (temp_section sec : section) c :
  prune_section seen temp_section sec !! c =
    if bool_decide (c ∈ seen) then sec !! c
    else match temp_section !! c with Some _ => None | None => sec !! c end.
Proof.
  unfold prune_section. revert temp_section.
  apply (map_fold_weak_ind (λ (r : section) (m : section),
    r !! c = if bool_decide (c ∈ seen) then sec !! c
             else match m !! c with Some _ => None | None => sec !! c end)).
  - rewrite lookup_empty. by case_bool_decide.
  - intros k x m r Hfresh IH.
    destruct (decide (k = c)) as [->|Hne].
    + rewrite lookup_insert_eq. destruct (bool_decide (c ∈ seen)); [done|].
      apply lookup_delete_eq.
    + rewrite lookup_insert_ne by done.
      destruct (bool_decide (k ∈ seen)); [done|]. by rewrite lookup_delete_ne.
Qed.

Lemma prune_lookup (seen : list string) (capabilities : caps) s :
  prune seen capabilities !! s =
    (λ sec, prune_section seen sec sec) <$> capabilities !! s.
Proof.
  unfold prune.
  cut (∀ temp_capabilities : caps,
    map_fold (λ I_O temp_section capabilities,
        alter (prune_section seen temp_section) I_O capabilities)
      capabilities temp_capabilities !! s =
    match temp_capabilities !! s with
    | Some temp_section => prune_section seen temp_section <$> capabilities !! s
    | None => capabilities !! s
    end).
  { intros H. rewrite H. by destruct (capabilities !! s). }
  apply (map_fold_weak_ind (λ (r m : caps),
    r !! s = match m !! s with
             | Some temp_section => prune_section seen temp_section <$> capabilities !! s
             | None => capabilities !! s
             end)).
  - by rewrite lookup_empty.
  - intros k x m r Hfresh IH. rewrite lookup_alter.
    destruct (decide (k = s)) as [->|Hne].
    + rewrite lookup_insert_eq. rewrite IH, Hfresh. done.
    + by rewrite lookup_insert_ne.
Qed.

Lemma prune_get_category (seen : list string) (capabilities : caps) s c :
  get_category (prune seen capabilities) s c =
    if bool_decide (c ∈ seen) then get_category capabilities s c else None.
Proof.
  unfold get_category. rewrite prune_lookup.
  destruct (capabilities !! s) as [sec|]; simpl.
  - rewrite prune_section_lookup. case_bool_decide; [done|]. by destruct (sec !! c).
  - by case_bool_decide.
Qed.

Lemma prune_get_entry (seen : list string) (capabilities : caps) s c i :
  get_entry (prune seen capabilities) s c i =
    if bool_decide (c ∈ seen) then get_entry capabilities s c i else None.
Proof.
  unfold get_entry. rewrite prune_get_category. by case_bool_decide.
Qed.

Lemma reconcile_inv template sensor_information actuator_information final :
  reconcile template sensor_information actuator_information = Ok final →
  ∃ st, reconcile_loops template sensor_information actuator_information = Ok st ∧
        final = prune (list_to_not_delete_device st) (capabilities st).
Proof.
  unfold reconcile. intros (st & Hst & [= <-])%rbind_Ok. eauto.
Qed.

(** ** The reconciled capabilities *)

(** C2: after both loops and the pruning loop, a category to which no
    discovered sensor and no discovered actuator maps is never in the
    list of seen categories, and a category that is not in that list is
    in no section of the capabilities that are written out. *)
Theorem unseen_category_pruned (template : caps)
    (sensor_information : list (string * string))
    (actuator_information : list (string * (string * (Q * Q))))
    (st : rstate) (c : string) :
  reconcile_loops template sensor_information actuator_information = Ok st →
  let final := prune (list_to_not_delete_device st) (capabilities st) in
  reconcile template sensor_information actuator_information = Ok final ∧
  (Forall (λ dev, SENSING_TYPES !! dev.2 ≠ Some c) sensor_information →
   Forall (λ dev, TRANSMISSION_TYPES !! dev.2.1 ≠ Some c) actuator_information →
   c ∉ list_to_not_delete_device st) ∧
  (c ∉ list_to_not_delete_device st →
   ∀ I_O, get_category final I_O c = None ∧
          ∀ sec, final !! I_O = Some sec → sec !! c = None).
Proof.
  intros Hloops final. split; [|split].
  - unfold reconcile. by rewrite Hloops.
  - intros Hs Ha Hseen.
    destruct (reconcile_loops_seen _ _ _ _ _ Hloops Hseen)
      as [(n & ty & Hin & Hty & _)|(n & ty & r & Hin & Hty & _)].
    + rewrite list.Forall_forall in Hs. by apply (Hs _ Hin).
    + rewrite list.Forall_forall in Ha. by apply (Ha _ Hin).
  - intros Hunseen I_O.
    assert (get_category final I_O c = None) as Hnone.
    { unfold final. rewrite prune_get_category. by rewrite bool_decide_eq_false_2. }
    split; [done|]. intros sec Hsec.
    unfold get_category in Hnone. by rewrite Hsec in Hnone.
Qed.

(** C2 on the example scene, which has no [rangefinder] sensor: the
    camera category of the template is gone. *)
Lemma unseen_category_pruned_witness :
  get_category example_final "input" "camera" = None.
Proof.
  pose (st := result_get (initial_state ∅)
                (reconcile_loops example_template example_sensors example_actuators)).
  assert (reconcile_loops example_template example_sensors example_actuators = Ok st)
    as Hloops by vm_refl.
  destruct (unseen_category_pruned _ _ _ st "camera" Hloops) as (Hfinal & Hnot & Hdel).
  assert (example_final = prune (list_to_not_delete_device st) (capabilities st)) as ->.
  { unfold example_final. by rewrite Hfinal. }
  apply Hdel, Hnot.
  - vm_decide.
  - vm_decide.
Defined.

(** C4: every indexed entry of the capabilities that are written out
    sits under a category for which a device was discovered: a sensor or
    an actuator of the scene whose declared kind maps to that category,
    the category being a key of the template section of its loop. *)
Theorem final_entry_has_device (template : caps)
    (sensor_information : list (string * string))
    (actuator_information : list (string * (string * (Q * Q))))
    (final : caps) (I_O c device_id : string) (e : entry) :
  reconcile template sensor_information actuator_information = Ok final →
  get_entry final I_O c device_id = Some e →
  discovered template sensor_information actuator_information c.
Proof.
  intros (st & Hloops & ->)%reconcile_inv He.
  rewrite prune_get_entry in He. case_bool_decide as Hseen; [|done].
  by eapply reconcile_loops_seen.
Qed.

(** C4 on the example scene, for the entry at servo index ["1"]. *)
Lemma final_entry_has_device_witness :
  discovered example_template example_sensors example_actuators "servo".
Proof.
  apply (final_entry_has_device example_template example_sensors example_actuators
           example_final "output" "servo" "1"
           (default ∅ (get_entry example_final "output" "servo" "1"))).
  - vm_refl.
  - vm_refl.
Defined.

(** C10: the capabilities that are written out have no section that the
    template lacks, and each of their sections has no category that the
    same section of the template lacks. *)
Theorem final_keys_subset_template (template : caps)
    (sensor_information : list (string * string))
    (actuator_information : list (string * (string * (Q * Q))))
    (final : caps) :
  reconcile template sensor_information actuator_information = Ok final →
  ∀ I_O (sec : section), final !! I_O = Some sec →
    ∃ sec0 : section, template !! I_O = Some sec0 ∧ dom sec ⊆ dom sec0.
Proof.
  intros (st & Hloops & ->)%reconcile_inv I_O sec Hsec.
  apply reconcile_loops_evolves in Hloops as (_ & [Hsections Hcats] & _).
  simpl in Hsections, Hcats.
  rewrite prune_lookup in Hsec.
  destruct (capabilities st !! I_O) as [sec1|] eqn:Hsec1; [|done].
  injection Hsec as <-.
  destruct (proj2 (Hsections I_O)) as [sec0 Hsec0]; [by rewrite Hsec1|].
  exists sec0. split; [done|].
  intros c [indexed Hc]%elem_of_dom. apply elem_of_dom.
  rewrite prune_section_lookup in Hc.
  assert (is_Some (get_category template I_O c)) as [indexed0 H0].
  { apply Hcats. unfold get_category. rewrite Hsec1.
    case_bool_decide; [eauto|]. by destruct (sec1 !! c). }
  unfold get_category in H0. rewrite Hsec0 in H0. eauto.
Qed.

(** C10 on the example scene, for the output section. *)
Lemma final_keys_subset_template_witness :
  ∃ sec0 : section,
    example_template !! "output" = Some sec0 ∧
    dom (default (∅ : section) (example_final !! "output")) ⊆ dom sec0.
Proof.
  assert (reconcile example_template example_sensors example_actuators
          = Ok example_final) as Hfinal by vm_refl.
  apply (final_keys_subset_template example_template example_sensors example_actuators
           example_final Hfinal "output").
  vm_refl.
Defined.

(** ** Dropped devices *)

Lemma sensor_step_skip st mujoco_device_name sensor_type :
  is_Some (capabilities st !! "input") →
  (SENSING_TYPES !! sensor_type = None ∨
   ∃ c, SENSING_TYPES !! sensor_type = Some c ∧
        get_category (capabilities st) "input" c = None) →
  sensor_step st (mujoco_device_name, sensor_type) = Ok st.
Proof.
  intros [input Hinput] Hdrop. unfold sensor_step, getitem. rewrite Hinput. simpl.
  destruct Hdrop as [->|(c & -> & Hc)]; [done|].
  unfold get_category in Hc. rewrite Hinput in Hc. by rewrite Hc.
Qed.

Lemma actuator_step_skip st mujoco_device_name actuator_type range_control :
  is_Some (capabilities st !! "output") →
  (TRANSMISSION_TYPES !! actuator_type = None ∨
   ∃ c, TRANSMISSION_TYPES !! actuator_type = Some c ∧
        get_category (capabilities st) "output" c = None) →
  actuator_step st (mujoco_device_name, (actuator_type, range_control)) = Ok st.
Proof.
  intros [output Houtput] Hdrop. unfold actuator_step, getitem. rewrite Houtput. simpl.
  destruct Hdrop as [->|(c & -> & Hc)]; [done|].
  unfold get_category in Hc. rewrite Houtput in Hc. by rewrite Hc.
Qed.

Lemma rbind_Ok_l {A B : Type} (a : A) (k : A → result B) : rbind (Ok a) k = k a.
Proof. done. Qed.

(** A key the template lacks is still lacking in any later state. *)
Lemma evolves_get_category_None template st I_O c :
  evolves (initial_state template) st →
  get_category template I_O c = None →
  get_category (capabilities st) I_O c = None.
Proof.
  intros (_ & [_ Hcats] & _) Hnone. simpl in Hcats.
  destruct (get_category (capabilities st) I_O c) eqn:Hget; [|done].
  destruct (proj2 (Hcats I_O c)) as [x Hx]; [eauto|]. congruence.
Qed.

Lemma evolves_section template st I_O :
  evolves (initial_state template) st →
  is_Some (template !! I_O) → is_Some (capabilities st !! I_O).
Proof. intros (_ & [Hsections _] & _). apply Hsections. Qed.

(** C9: provided the template has the section of the loop, a device
    whose declared kind is not in the lookup table of that loop, or whose
    category is not a key of that section of the template, leaves the
    state of the loop as it found it and raises nothing, wherever it
    comes in the order of discovery; the reconciliation gives what it
    gives without the device, exception or capabilities. *)
Theorem unmapped_device_dropped (template : caps) :
  (∀ mujoco_device_name sensor_type pre post actuator_information,
      is_Some (template !! "input") →
      (SENSING_TYPES !! sensor_type = None ∨
       ∃ c, SENSING_TYPES !! sensor_type = Some c ∧
            get_category template "input" c = None) →
      (∀ st, run_loop sensor_step (initial_state template) pre = Ok st →
             sensor_step st (mujoco_device_name, sensor_type) = Ok st) ∧
      reconcile template (pre ++ (mujoco_device_name, sensor_type) :: post)
        actuator_information
      = reconcile template (pre ++ post) actuator_information) ∧
  (∀ mujoco_device_name actuator_type range_control sensor_information pre post,
      is_Some (template !! "output") →
      (TRANSMISSION_TYPES !! actuator_type = None ∨
       ∃ c, TRANSMISSION_TYPES !! actuator_type = Some c ∧
            get_category template "output" c = None) →
      (∀ st, reconcile_loops template sensor_information pre = Ok st →
             actuator_step st (mujoco_device_name, (actuator_type, range_control))
             = Ok st) ∧
      reconcile template sensor_information
        (pre ++ (mujoco_device_name, (actuator_type, range_control)) :: post)
      = reconcile template sensor_information (pre ++ post)).
Proof.
  split.
  - intros n ty pre post acts Hsec Hdrop.
    assert (∀ st, run_loop sensor_step (initial_state template) pre = Ok st →
                  sensor_step st (n, ty) = Ok st) as Hskip.
    { intros st Hpre. apply run_sensors_evolves in Hpre.
      apply sensor_step_skip; [by eapply evolves_section|].
      destruct Hdrop as [?|(c & ? & ?)]; [by left|].
      right. exists c. split; [done|]. by eapply evolves_get_category_None. }
    split; [done|].
    unfold reconcile, reconcile_loops. rewrite !run_loop_app.
    destruct (run_loop sensor_step (initial_state template) pre) as [st|e] eqn:Hpre;
      [|done].
    rewrite !rbind_Ok_l. cbv beta. by rewrite run_loop_cons, (Hskip st).
  - intros n ty r sens pre post Hsec Hdrop.
    assert (∀ st, reconcile_loops template sens pre = Ok st →
                  actuator_step st (n, (ty, r)) = Ok st) as Hskip.
    { intros st Hpre. apply reconcile_loops_evolves in Hpre.
      apply actuator_step_skip; [by eapply evolves_section|].
      destruct Hdrop as [?|(c & ? & ?)]; [by left|].
      right. exists c. split; [done|]. by eapply evolves_get_category_None. }
    split; [done|].
    unfold reconcile. f_equal.
    assert (∀ l, reconcile_loops template sens (pre ++ l) =
                 (st ←? reconcile_loops template sens pre; run_loop actuator_step st l))
      as Happ.
    { intros l. unfold reconcile_loops.
      destruct (run_loop sensor_step (initial_state template) sens); [|done].
      rewrite !rbind_Ok_l. apply run_loop_app. }
    rewrite !Happ.
    destruct (reconcile_loops template sens pre) as [st|e] eqn:Hpre; [|done].
    rewrite !rbind_Ok_l. cbv beta. by rewrite run_loop_cons, (Hskip st).
Qed.

(** Without the section of the loop in the template, the membership
    test itself raises: [capabilities['input']] is read first. *)
Example sensor_without_input_section :
  reconcile {[ "output" := ∅ ]} [("imu_acc", "accelerometer")] [] = Raise KeyError.
Proof. vm_refl. Qed.

(** C9 on the example scene: the accelerometer, of a kind that is not in
    [SENSING_TYPES], changes nothing. *)
Lemma unmapped_device_dropped_witness :
  reconcile example_template
    ([("head_gyro", "framequat")] ++ ("imu_acc", "accelerometer") :: [("left_foot", "distance")])
    example_actuators
  = reconcile example_template ([("head_gyro", "framequat")] ++ [("left_foot", "distance")])
      example_actuators.
Proof.
  apply (proj1 (unmapped_device_dropped example_template)).
  - vm_decide.
  - left. vm_refl.
Defined.

(** ** The stored record *)

Lemma py_str_0 : py_str 0 = "0".
Proof. reflexivity. Qed.

Lemma stamp_custom_name n i (base : entry) :
  stamp n i base !! "custom_name" = Some (VStr n).
Proof. unfold stamp. by rewrite lookup_insert_ne, lookup_insert_eq. Qed.

Lemma stamp_feagi_index n i (base : entry) :
  stamp n i base !! "feagi_index" = Some (VInt (Z.of_nat i)).
Proof. unfold stamp. by rewrite lookup_insert_eq. Qed.

Lemma stamp_other n i (base : entry) field :
  field ∉ ["custom_name"; "feagi_index"] → stamp n i base !! field = base !! field.
Proof.
  intros Hf. unfold stamp.
  rewrite !lookup_insert_ne; [done|..]; intros <-; apply Hf;
    repeat first [by left | right].
Qed.

Lemma overwrite_limits_servo (r : Q * Q) (base : entry) :
  overwrite_limits "servo" r base !! "max_value" = Some (VFloat r.2) ∧
  overwrite_limits "servo" r base !! "min_value" = Some (VFloat r.1).
Proof.
  unfold overwrite_limits. rewrite bool_decide_eq_true_2 by done.
  by rewrite lookup_insert_eq, lookup_insert_ne, lookup_insert_eq.
Qed.

Lemma overwrite_limits_motor (r : Q * Q) (base : entry) :
  overwrite_limits "motor" r base !! "max_power" = Some (VFloat r.2) ∧
  overwrite_limits "motor" r base !! "rolling_window_len" = Some (VInt 2).
Proof.
  unfold overwrite_limits.
  rewrite bool_decide_eq_false_2, bool_decide_eq_true_2 by done.
  by rewrite lookup_insert_eq, lookup_insert_ne, lookup_insert_eq.
Qed.

Lemma overwrite_limits_other c (r : Q * Q) (base : entry) field :
  field ∉ ["max_value"; "min_value"; "max_power"; "rolling_window_len"] →
  overwrite_limits c r base !! field = base !! field.
Proof.
  intros Hf. unfold overwrite_limits.
  repeat case_bool_decide; [| |done];
    (rewrite !lookup_insert_ne; [done|..]; intros <-; apply Hf;
     repeat first [by left | right]).
Qed.

(** A device whose category is a key of the template section is recorded. *)
Lemma sensor_step_recorded template st n ty st' c :
  evolves (initial_state template) st →
  sensor_step st (n, ty) = Ok st' →
  SENSING_TYPES !! ty = Some c →
  is_Some (get_category template "input" c) →
  ∃ base,
    recorded "input" c (stamp n (increment st') base) st st' ∧
    temp_copy_property_input st' = stamp n (increment st') base ∧
    (c ∉ list_to_not_delete_device st →
     get_entry template "input" c "0" = Some base) ∧
    (c ∈ list_to_not_delete_device st → base = temp_copy_property_input st).
Proof.
  intros Hev Hstep Hc Htpl.
  pose proof Hev as (_ & [_ Hcats] & Hunseen). simpl in Hcats, Hunseen.
  apply sensor_step_inv in Hstep as [_ [[-> Hnone]|(c' & base & Hc' & Hrec & Htemp & _ & Hbase)]].
  - apply Hcats in Htpl as [x Hx]. rewrite (Hnone c Hc) in Hx. done.
  - assert (c' = c) as -> by congruence.
    exists base. split; [done|]. split; [done|]. split.
    + intros Hnew. rewrite (recorded_first _ _ _ _ _ Hrec Hnew) in Hbase.
      rewrite bool_decide_eq_true_2 in Hbase by done.
      rewrite py_str_0 in Hbase. unfold get_entry in *.
      by rewrite <- (Hunseen "input" c Hnew).
    + intros Hold. rewrite (recorded_again _ _ _ _ _ Hrec Hold) in Hbase.
      by rewrite bool_decide_eq_false_2 in Hbase.
Qed.

Lemma actuator_step_recorded template st n ty r st' c :
  evolves (initial_state template) st →
  actuator_step st (n, (ty, r)) = Ok st' →
  TRANSMISSION_TYPES !! ty = Some c →
  is_Some (get_category template "output" c) →
  ∃ base,
    recorded "output" c (stamp n (increment st') (overwrite_limits c r base)) st st' ∧
    temp_copy_property_output st' = stamp n (increment st') (overwrite_limits c r base) ∧
    (c ∉ list_to_not_delete_device st →
     get_entry template "output" c "0" = Some base) ∧
    (c ∈ list_to_not_delete_device st → base = temp_copy_property_output st).
Proof.
  intros Hev Hstep Hc Htpl.
  pose proof Hev as (_ & [_ Hcats] & Hunseen). simpl in Hcats, Hunseen.
  apply actuator_step_inv in Hstep as [_ [[-> Hnone]|(c' & base & Hc' & Hrec & Htemp & _ & Hbase)]].
  - apply Hcats in Htpl as [x Hx]. rewrite (Hnone c Hc) in Hx. done.
  - assert (c' = c) as -> by congruence.
    exists base. split; [done|]. split; [done|]. split.
    + intros Hnew. rewrite (recorded_first _ _ _ _ _ Hrec Hnew) in Hbase.
      rewrite bool_decide_eq_true_2 in Hbase by done.
      rewrite py_str_0 in Hbase. unfold get_entry in *.
      by rewrite <- (Hunseen "output" c Hnew).
    + intros Hold. rewrite (recorded_again _ _ _ _ _ Hrec Hold) in Hbase.
      by rewrite bool_decide_eq_false_2 in Hbase.
Qed.

(** C8: a recorded device whose category is met for the first time gets
    index 0 and its record starts from the template entry of that
    category at index ["0"]; a recorded device whose category was met
    before gets the counter plus one and its record starts from the
    record carried over from the previous recorded device of the loop.
    In both cases the record stored at the device's index, which is also
    the record carried on, is that base with the custom name and the
    index overwritten (after the limits, for an actuator) and every
    other field kept. *)
Theorem base_record_reuse (template : caps) :
  (∀ pre mujoco_device_name sensor_type st st' c,
      run_loop sensor_step (initial_state template) pre = Ok st →
      sensor_step st (mujoco_device_name, sensor_type) = Ok st' →
      SENSING_TYPES !! sensor_type = Some c →
      is_Some (get_category template "input" c) →
      ∃ base stored,
        stored = stamp mujoco_device_name (increment st') base ∧
        get_entry (capabilities st') "input" c (py_str (increment st')) = Some stored ∧
        temp_copy_property_input st' = stored ∧
        (c ∉ list_to_not_delete_device st →
         increment st' = 0 ∧ get_entry template "input" c "0" = Some base) ∧
        (c ∈ list_to_not_delete_device st →
         increment st' = S (increment st) ∧ base = temp_copy_property_input st) ∧
        (∀ field, field ∉ ["custom_name"; "feagi_index"] →
                  stored !! field = base !! field)) ∧
  (∀ sensor_information pre mujoco_device_name actuator_type range_control st st' c,
      reconcile_loops template sensor_information pre = Ok st →
      actuator_step st (mujoco_device_name, (actuator_type, range_control)) = Ok st' →
      TRANSMISSION_TYPES !! actuator_type = Some c →
      is_Some (get_category template "output" c) →
      ∃ base stored,
        stored = stamp mujoco_device_name (increment st')
                   (overwrite_limits c range_control base) ∧
        get_entry (capabilities st') "output" c (py_str (increment st')) = Some stored ∧
        temp_copy_property_output st' = stored ∧
        (c ∉ list_to_not_delete_device st →
         increment st' = 0 ∧ get_entry template "output" c "0" = Some base) ∧
        (c ∈ list_to_not_delete_device st →
         increment st' = S (increment st) ∧ base = temp_copy_property_output st) ∧
        (∀ field,
            field ∉ ["custom_name"; "feagi_index"; "max_value"; "min_value";
                     "max_power"; "rolling_window_len"] →
            stored !! field = base !! field)).
Proof.
  split.
  - intros pre n ty st st' c Hpre Hstep Hc Htpl.
    apply run_sensors_evolves in Hpre.
    destruct (sensor_step_recorded _ _ _ _ _ _ Hpre Hstep Hc Htpl)
      as (base & Hrec & Htemp & Hfirst & Hagain).
    exists base, (stamp n (increment st') base). split; [done|].
    split; [by eapply recorded_stored|]. split; [done|].
    split; [|split].
    + intros Hnew. split; [by eapply recorded_first | auto].
    + intros Hold. split; [by eapply recorded_again | auto].
    + apply stamp_other.
  - intros sens pre n ty r st st' c Hpre Hstep Hc Htpl.
    apply reconcile_loops_evolves in Hpre.
    destruct (actuator_step_recorded _ _ _ _ _ _ _ Hpre Hstep Hc Htpl)
      as (base & Hrec & Htemp & Hfirst & Hagain).
    exists base, (stamp n (increment st') (overwrite_limits c r base)). split; [done|].
    split; [by eapply recorded_stored|]. split; [done|].
    split; [|split].
    + intros Hnew. split; [by eapply recorded_first | auto].
    + intros Hold. split; [by eapply recorded_again | auto].
    + intros field Hf. rewrite stamp_other, overwrite_limits_other; [done|..];
        intros Hin; apply Hf; set_unfold; tauto.
Qed.

(** C8 on the example scene, for the second gyro. *)
Lemma base_record_reuse_witness :
  let st := result_get (initial_state ∅)
              (run_loop sensor_step (initial_state example_template)
                 [("head_gyro", "framequat")]) in
  let st' := result_get st (sensor_step st ("torso_gyro", "framequat")) in
  ∃ base stored,
    stored = stamp "torso_gyro" (increment st') base ∧
    get_entry (capabilities st') "input" "gyro" (py_str (increment st')) = Some stored ∧
    temp_copy_property_input st' = stored ∧
    ("gyro" ∉ list_to_not_delete_device st →
     increment st' = 0 ∧ get_entry example_template "input" "gyro" "0" = Some base) ∧
    ("gyro" ∈ list_to_not_delete_device st →
     increment st' = S (increment st) ∧ base = temp_copy_property_input st) ∧
    (∀ field, field ∉ ["custom_name"; "feagi_index"] → stored !! field = base !! field).
Proof.
  intros st st'.
  apply (proj1 (base_record_reuse example_template) [("head_gyro", "framequat")]
           "torso_gyro" "framequat" st st' "gyro").
  - vm_refl.
  - vm_refl.
  - vm_refl.
  - vm_decide.
Defined.

(** ** Actuator limits *)

Lemma reconcile_loops_app template sens pre l :
  reconcile_loops template sens (pre ++ l) =
    (st ←? reconcile_loops template sens pre; run_loop actuator_step st l).
Proof.
  unfold reconcile_loops.
  destruct (run_loop sensor_step (initial_state template) sens); [|done].
  rewrite !rbind_Ok_l. apply run_loop_app.
Qed.

Lemma actuator_slots_cons st dev rest st' :
  actuator_step st dev = Ok st' →
  actuator_slots st (dev :: rest) =
    option_list (actuator_slot st dev) ++ actuator_slots st' rest.
Proof. intros Hstep. simpl. by rewrite Hstep. Qed.

(** A slot that no later device of the loop is stored at keeps its
    record to the end of the loop. *)
Lemma run_actuators_slot_kept c i : ∀ post st st',
  run_loop actuator_step st post = Ok st' →
  (c, i) ∉ actuator_slots st post →
  get_entry (capabilities st') "output" c (py_str i)
  = get_entry (capabilities st) "output" c (py_str i).
Proof.
  induction post as [|[n [ty r]] post IH]; intros st st' Hrun Hfree.
  - by injection Hrun as <-.
  - rewrite run_loop_cons in Hrun. apply rbind_Ok in Hrun as (st1 & Hd & Hrest).
    rewrite (actuator_slots_cons _ _ _ _ Hd) in Hfree.
    apply not_elem_of_app in Hfree as [Hhere Hlater].
    rewrite (IH _ _ Hrest Hlater).
    apply actuator_step_inv in Hd as [_ [[-> _]|(c1 & base & Hty & Hrec & _)]]; [done|].
    rewrite (recorded_get_entry _ _ _ _ _ Hrec).
    rewrite decide_False; [done|]. intros (_ & -> & Hi). apply py_str_inj in Hi as ->.
    apply Hhere. unfold actuator_slot. simpl. rewrite Hty.
    destruct (recorded_in_section _ _ _ _ _ Hrec) as [indexed ->]. simpl.
    rewrite <- (recorded_index _ _ _ _ _ Hrec). by left.
Qed.

(** The sensor loop leaves the output section alone. *)
Lemma run_sensors_output l st st' c device_id :
  run_loop sensor_step st l = Ok st' →
  get_entry (capabilities st') "output" c device_id
  = get_entry (capabilities st) "output" c device_id.
Proof.
  revert l st st'.
  apply (run_loop_preserves sensor_step (λ st st',
    get_entry (capabilities st') "output" c device_id
    = get_entry (capabilities st) "output" c device_id)).
  - done.
  - intros ??? H1 H2. by rewrite H2.
  - intros st [n ty] st' Hstep.
    apply sensor_step_inv in Hstep as [_ [[-> _]|(c' & base & _ & Hrec & _)]]; [done|].
    rewrite (recorded_get_entry _ _ _ _ _ Hrec).
    rewrite decide_False; [done|]. by intros [[=] _].
Qed.

(** Every entry of the output section after the actuator loop was there
    before it or is the record of one of the actuators of the loop. *)
Lemma run_actuators_written l : ∀ st st' c device_id (e : entry),
  run_loop actuator_step st l = Ok st' →
  get_entry (capabilities st') "output" c device_id = Some e →
  get_entry (capabilities st) "output" c device_id = Some e ∨
  ∃ dev, dev ∈ l ∧ actuator_record dev c device_id e.
Proof.
  induction l as [|[n [ty r]] l IH]; intros st st' c device_id e Hrun He.
  - injection Hrun as <-. by left.
  - rewrite run_loop_cons in Hrun. apply rbind_Ok in Hrun as (st1 & Hd & Hrest).
    destruct (IH _ _ _ _ _ Hrest He) as [He1|(dev & Hin & Hdev)].
    2:{ right. exists dev. split; [by right | done]. }
    apply actuator_step_inv in Hd as [_ [[-> _]|(c1 & base & Hty & Hrec & _)]];
      [by left|].
    rewrite (recorded_get_entry _ _ _ _ _ Hrec) in He1.
    case_decide as Hslot; [|by left].
    destruct Hslot as (_ & -> & ->). injection He1 as <-.
    right. exists (n, (ty, r)). split; [by left|].
    split; [done|]. by exists (increment st1), base.
Qed.

Lemma actuator_record_fields dev c device_id (e : entry) :
  actuator_record dev c device_id e →
  e !! "custom_name" = Some (VStr dev.1) ∧
  (c = "servo" →
   e !! "max_value" = Some (VFloat dev.2.2.2) ∧
   e !! "min_value" = Some (VFloat dev.2.2.1)) ∧
  (c = "motor" →
   e !! "max_power" = Some (VFloat dev.2.2.2) ∧
   e !! "rolling_window_len" = Some (VInt 2)).
Proof.
  intros (_ & i & base & _ & ->). split; [apply stamp_custom_name|]. split.
  - intros ->. rewrite !stamp_other; [apply overwrite_limits_servo|..];
      set_unfold; intros [?|[?|?]]; done.
  - intros ->. rewrite !stamp_other; [apply overwrite_limits_motor|..];
      set_unfold; intros [?|[?|?]]; done.
Qed.

(** The part of C5 that the code keeps: an actuator whose category is a
    key of the template's output section is stored, at the index the
    loop assigns to it, with its own name and index and with limits read
    from its declared control range: a servo's [max_value] and [min_value] are the upper and lower end of
    the range, a motor's [max_power] is the upper end of the range and
    its [rolling_window_len] is the constant 2.  Unless a later actuator
    is stored at the same category and index, that record is the one in
    the capabilities that are written out.  Conversely every entry of the
    output section that is written out is either the template's entry at
    that place, untouched, or the record of a discovered actuator of that
    category, with that actuator's name and limits. *)
Theorem actuator_limits_from_range (template : caps)
    (sensor_information : list (string * string))
    (pre post : list (string * (string * (Q * Q))))
    (mujoco_device_name actuator_type : string) (range_control : Q * Q)
    (st st' : rstate) (final : caps) (c : string) :
  reconcile_loops template sensor_information pre = Ok st →
  actuator_step st (mujoco_device_name, (actuator_type, range_control)) = Ok st' →
  reconcile template sensor_information
    (pre ++ (mujoco_device_name, (actuator_type, range_control)) :: post) = Ok final →
  TRANSMISSION_TYPES !! actuator_type = Some c →
  is_Some (get_category template "output" c) →
  (∃ e : entry,
    get_entry (capabilities st') "output" c (py_str (increment st')) = Some e ∧
    e !! "custom_name" = Some (VStr mujoco_device_name) ∧
    e !! "feagi_index" = Some (VInt (Z.of_nat (increment st'))) ∧
    (c = "servo" →
     e !! "max_value" = Some (VFloat range_control.2) ∧
     e !! "min_value" = Some (VFloat range_control.1)) ∧
    (c = "motor" →
     e !! "max_power" = Some (VFloat range_control.2) ∧
     e !! "rolling_window_len" = Some (VInt 2)) ∧
    ((c, increment st') ∉ actuator_slots st' post →
     get_entry final "output" c (py_str (increment st')) = Some e)) ∧
  (∀ c' device_id (e : entry),
    get_entry final "output" c' device_id = Some e →
    get_entry template "output" c' device_id = Some e ∨
    ∃ dev,
      dev ∈ pre ++ (mujoco_device_name, (actuator_type, range_control)) :: post ∧
      TRANSMISSION_TYPES !! dev.2.1 = Some c' ∧
      e !! "custom_name" = Some (VStr dev.1) ∧
      (c' = "servo" →
       e !! "max_value" = Some (VFloat dev.2.2.2) ∧
       e !! "min_value" = Some (VFloat dev.2.2.1)) ∧
      (c' = "motor" →
       e !! "max_power" = Some (VFloat dev.2.2.2) ∧
       e !! "rolling_window_len" = Some (VInt 2))).
Proof.
  intros Hpre Hstep Hfinal Hc Htpl. split.
  - destruct (actuator_step_recorded _ _ _ _ _ _ _
                (reconcile_loops_evolves _ _ _ _ Hpre) Hstep Hc Htpl)
      as (base & Hrec & _).
    eexists. split; [by eapply recorded_stored|].
    split; [apply stamp_custom_name|]. split; [apply stamp_feagi_index|].
    split; [|split].
    + intros ->. rewrite !stamp_other; [apply overwrite_limits_servo|..];
        set_unfold; intros [?|[?|?]]; done.
    + intros ->. rewrite !stamp_other; [apply overwrite_limits_motor|..];
        set_unfold; intros [?|[?|?]]; done.
    + intros Hfree.
      apply reconcile_inv in Hfinal as (st3 & Hloops & ->).
      rewrite reconcile_loops_app, Hpre, rbind_Ok_l, run_loop_cons, Hstep, rbind_Ok_l
        in Hloops.
      rewrite prune_get_entry, bool_decide_eq_true_2.
      * rewrite (run_actuators_slot_kept _ _ _ _ _ Hloops Hfree).
        by eapply recorded_stored.
      * apply run_actuators_evolves in Hloops as (Hmono & _).
        apply Hmono, (recorded_seen _ _ _ _ _ Hrec). by right.
  - intros c' device_id e He.
    apply reconcile_inv in Hfinal as (st3 & Hloops & ->).
    rewrite prune_get_entry in He. case_bool_decide; [|done].
    apply reconcile_loops_inv in Hloops as (st0 & Hs & Ha).
    destruct (run_actuators_written _ _ _ _ _ _ Ha He) as [He0|(dev & Hin & Hdev)].
    + left. change (capabilities (begin_actuators st0)) with (capabilities st0) in He0.
      by rewrite (run_sensors_output _ _ _ _ _ Hs) in He0.
    + right. exists dev. split; [done|]. split; [apply Hdev|].
      by eapply actuator_record_fields.
Qed.

(** On the example scene, for the second servo. *)
Lemma actuator_limits_from_range_witness :
  let st := result_get (initial_state ∅)
              (reconcile_loops example_template example_sensors
                 [("hip", ("position", (Qmake (-1) 2, Qmake 1 2)))]) in
  let st' := result_get st
               (actuator_step st ("knee", ("position", (Qmake (-2) 1, Qmake 0 1)))) in
  ∃ e : entry,
    get_entry (capabilities st') "output" "servo" (py_str (increment st')) = Some e ∧
    e !! "custom_name" = Some (VStr "knee") ∧
    e !! "feagi_index" = Some (VInt (Z.of_nat (increment st'))) ∧
    ("servo" = "servo" →
     e !! "max_value" = Some (VFloat (Qmake 0 1)) ∧
     e !! "min_value" = Some (VFloat (Qmake (-2) 1))) ∧
    ("servo" = "motor" →
     e !! "max_power" = Some (VFloat (Qmake 0 1)) ∧
     e !! "rolling_window_len" = Some (VInt 2)) ∧
    (("servo", increment st') ∉
       actuator_slots st' [("wheel", ("motor", (Qmake 0 1, Qmake 5 1)));
                           ("fan", ("velocity", (Qmake 0 1, Qmake 1 1)))] →
     get_entry example_final "output" "servo" (py_str (increment st')) = Some e).
Proof.
  intros st st'.
  apply (actuator_limits_from_range example_template example_sensors
           [("hip", ("position", (Qmake (-1) 2, Qmake 1 2)))]
           [("wheel", ("motor", (Qmake 0 1, Qmake 5 1)));
            ("fan", ("velocity", (Qmake 0 1, Qmake 1 1)))]
           "knee" "position" (Qmake (-2) 1, Qmake 0 1) st st' example_final "servo").
  - vm_refl.
  - vm_refl.
  - vm_refl.
  - vm_refl.
  - vm_decide.
Defined.

(** ** Indices of a contiguous group *)

(** A sensor of an already seen category that is a key of the input
    section is always recorded, at the counter plus one. *)
Lemma sensor_step_again st n ty c :
  SENSING_TYPES !! ty = Some c →
  is_Some (get_category (capabilities st) "input" c) →
  c ∈ list_to_not_delete_device st →
  ∃ st', sensor_step st (n, ty) = Ok st' ∧
         recorded "input" c (stamp n (S (increment st)) (temp_copy_property_input st))
           st st' ∧
         increment st' = S (increment st).
Proof.
  intros Hty [indexed Hcat] Hseen.
  apply get_category_Some in Hcat as (input & Hinput & Hcat).
  unfold sensor_step, getitem. rewrite Hinput, Hty. simpl. rewrite Hcat.
  unfold next_increment. rewrite bool_decide_eq_true_2 by done.
  rewrite bool_decide_eq_false_2 by done. simpl.
  eexists. split; [done|]. split; [|done].
  exists input, indexed. simpl. unfold next_increment.
  by rewrite bool_decide_eq_true_2.
Qed.

(** A sensor whose category is met for the first time is recorded at
    index 0 when the section holds an entry ["0"] for the category. *)
Lemma sensor_step_first st n ty c (base : entry) :
  SENSING_TYPES !! ty = Some c →
  get_entry (capabilities st) "input" c "0" = Some base →
  c ∉ list_to_not_delete_device st →
  ∃ st', sensor_step st (n, ty) = Ok st' ∧
         recorded "input" c (stamp n 0 base) st st' ∧
         increment st' = 0.
Proof.
  intros Hty Hbase Hnew.
  apply get_entry_Some in Hbase as (indexed & Hcat & Hbase).
  apply get_category_Some in Hcat as (input & Hinput & Hcat).
  unfold sensor_step, getitem. rewrite Hinput, Hty. simpl. rewrite Hcat.
  unfold next_increment. rewrite bool_decide_eq_false_2 by done.
  rewrite bool_decide_eq_true_2 by done. rewrite py_str_0, Hbase. simpl.
  eexists. split; [done|]. split; [|done].
  exists input, indexed. simpl. unfold next_increment.
  by rewrite bool_decide_eq_false_2.
Qed.

(** A run of sensors of one already seen category is recorded at
    consecutive indices, without touching the indices up to the counter. *)
Lemma sensor_block_indices c : ∀ l st,
  Forall (λ dev, SENSING_TYPES !! dev.2 = Some c) l →
  is_Some (get_category (capabilities st) "input" c) →
  c ∈ list_to_not_delete_device st →
  ∃ st', run_loop sensor_step st l = Ok st' ∧
    increment st' = increment st + length l ∧
    (∀ k, k ≤ increment st →
          get_entry (capabilities st') "input" c (py_str k)
          = get_entry (capabilities st) "input" c (py_str k)) ∧
    (∀ j dev, l !! j = Some dev →
       ∃ e : entry,
         get_entry (capabilities st') "input" c (py_str (increment st + S j)) = Some e ∧
         e !! "custom_name" = Some (VStr dev.1) ∧
         e !! "feagi_index" = Some (VInt (Z.of_nat (increment st + S j)))).
Proof.
  induction l as [|[n ty] l IH]; intros st Hall Hcat Hseen.
  - exists st. split; [done|]. split; [simpl; lia|]. split; [done|].
    intros j dev Hj. by rewrite lookup_nil in Hj.
  - apply list.Forall_cons in Hall as [Hty Hall]. simpl in Hty.
    destruct (sensor_step_again st n ty c Hty Hcat Hseen) as (st1 & Hstep & Hrec & Hinc).
    destruct (IH st1 Hall) as (st' & Hrun & Hinc' & Hkeep & Hnames).
    { by apply (recorded_same_keys _ _ _ _ _ Hrec). }
    { apply (recorded_seen _ _ _ _ _ Hrec). by left. }
    exists st'. split; [by rewrite run_loop_cons, Hstep|].
    split; [rewrite Hinc', Hinc; simpl; lia|]. split.
    + intros k Hk. rewrite Hkeep by lia.
      rewrite (recorded_get_entry _ _ _ _ _ Hrec). rewrite decide_False; [done|].
      intros (_ & _ & Heq). apply py_str_inj in Heq. lia.
    + intros [|j] dev Hj.
      * injection Hj as <-. simpl.
        replace (increment st + 1) with (increment st1) by lia.
        eexists. split; [|split].
        -- rewrite Hkeep by lia. by eapply recorded_stored.
        -- apply stamp_custom_name.
        -- rewrite Hinc. apply stamp_feagi_index.
      * simpl in Hj. replace (increment st + S (S j)) with (increment st1 + S j) by lia.
        by apply Hnames.
Qed.

(** X24: a contiguous group of sensors of one category met for the first
    time, the section holding an entry ["0"] for that category: the loop
    raises nothing and the [j]-th sensor of the group is recorded at
    index [j], so the indices of the group are 0, 1, 2, ... in the order
    of discovery. *)
Lemma sensor_group_indices c st l (base : entry) :
  Forall (λ dev, SENSING_TYPES !! dev.2 = Some c) l →
  get_entry (capabilities st) "input" c "0" = Some base →
  c ∉ list_to_not_delete_device st →
  ∃ st', run_loop sensor_step st l = Ok st' ∧
    ∀ j dev, l !! j = Some dev →
      ∃ e : entry,
        get_entry (capabilities st') "input" c (py_str j) = Some e ∧
        e !! "custom_name" = Some (VStr dev.1) ∧
        e !! "feagi_index" = Some (VInt (Z.of_nat j)).
Proof.
  intros Hall Hbase Hnew. destruct l as [|[n ty] l].
  - exists st. split; [done|]. intros j dev Hj. by rewrite lookup_nil in Hj.
  - apply list.Forall_cons in Hall as [Hty Hall]. simpl in Hty.
    destruct (sensor_step_first st n ty c base Hty Hbase Hnew)
      as (st1 & Hstep & Hrec & Hinc).
    destruct (sensor_block_indices c l st1 Hall) as (st' & Hrun & _ & Hkeep & Hnames).
    { apply (recorded_same_keys _ _ _ _ _ Hrec). by eapply recorded_in_section. }
    { apply (recorded_seen _ _ _ _ _ Hrec). by right. }
    exists st'. split; [by rewrite run_loop_cons, Hstep|].
    intros [|j] dev Hj.
    + injection Hj as <-. simpl. eexists. split; [|split].
      * rewrite Hkeep by lia. rewrite <- Hinc. by eapply recorded_stored.
      * apply stamp_custom_name.
      * apply stamp_feagi_index.
    + simpl in Hj. destruct (Hnames j dev Hj) as (e & He & Hn & Hi).
      rewrite Hinc in He, Hi. simpl in He, Hi. eauto.
Qed.

(** An actuator of an already seen category that is a key of the output
    section is always recorded, at the counter plus one. *)
Lemma actuator_step_again st n ty r c :
  TRANSMISSION_TYPES !! ty = Some c →
  is_Some (get_category (capabilities st) "output" c) →
  c ∈ list_to_not_delete_device st →
  ∃ st', actuator_step st (n, (ty, r)) = Ok st' ∧
         recorded "output" c (stamp n (S (increment st))
              (overwrite_limits c r (temp_copy_property_output st)))
           st st' ∧
         increment st' = S (increment st).
Proof.
  intros Hty [indexed Hcat] Hseen.
  apply get_category_Some in Hcat as (output & Houtput & Hcat).
  unfold actuator_step, getitem. rewrite Houtput, Hty. simpl. rewrite Hcat.
  unfold next_increment. rewrite bool_decide_eq_true_2 by done.
  rewrite bool_decide_eq_false_2 by done. simpl.
  eexists. split; [done|]. split; [|done].
  exists output, indexed. simpl. unfold next_increment.
  by rewrite bool_decide_eq_true_2.
Qed.

(** An actuator whose category is met for the first time is recorded at
    index 0 when the section holds an entry ["0"] for the category. *)
Lemma actuator_step_first st n ty r c (base : entry) :
  TRANSMISSION_TYPES !! ty = Some c →
  get_entry (capabilities st) "output" c "0" = Some base →
  c ∉ list_to_not_delete_device st →
  ∃ st', actuator_step st (n, (ty, r)) = Ok st' ∧
         recorded "output" c (stamp n 0 (overwrite_limits c r base)) st st' ∧
         increment st' = 0.
Proof.
  intros Hty Hbase Hnew.
  apply get_entry_Some in Hbase as (indexed & Hcat & Hbase).
  apply get_category_Some in Hcat as (output & Houtput & Hcat).
  unfold actuator_step, getitem. rewrite Houtput, Hty. simpl. rewrite Hcat.
  unfold next_increment. rewrite bool_decide_eq_false_2 by done.
  rewrite bool_decide_eq_true_2 by done. rewrite py_str_0, Hbase. simpl.
  eexists. split; [done|]. split; [|done].
  exists output, indexed. simpl. unfold next_increment.
  by rewrite bool_decide_eq_false_2.
Qed.

(** A run of actuators of one already seen category is recorded at
    consecutive indices, without touching the indices up to the counter. *)
Lemma actuator_block_indices c : ∀ l st,
  Forall (λ dev, TRANSMISSION_TYPES !! dev.2.1 = Some c) l →
  is_Some (get_category (capabilities st) "output" c) →
  c ∈ list_to_not_delete_device st →
  ∃ st', run_loop actuator_step st l = Ok st' ∧
    increment st' = increment st + length l ∧
    (∀ k, k ≤ increment st →
          get_entry (capabilities st') "output" c (py_str k)
          = get_entry (capabilities st) "output" c (py_str k)) ∧
    (∀ j dev, l !! j = Some dev →
       ∃ e : entry,
         get_entry (capabilities st') "output" c (py_str (increment st + S j)) = Some e ∧
         e !! "custom_name" = Some (VStr dev.1) ∧
         e !! "feagi_index" = Some (VInt (Z.of_nat (increment st + S j)))).
Proof.
  induction l as [|[n [ty r]] l IH]; intros st Hall Hcat Hseen.
  - exists st. split; [done|]. split; [simpl; lia|]. split; [done|].
    intros j dev Hj. by rewrite lookup_nil in Hj.
  - apply list.Forall_cons in Hall as [Hty Hall]. simpl in Hty.
    destruct (actuator_step_again st n ty r c Hty Hcat Hseen) as (st1 & Hstep & Hrec & Hinc).
    destruct (IH st1 Hall) as (st' & Hrun & Hinc' & Hkeep & Hnames).
    { by apply (recorded_same_keys _ _ _ _ _ Hrec). }
    { apply (recorded_seen _ _ _ _ _ Hrec). by left. }
    exists st'. split; [by rewrite run_loop_cons, Hstep|].
    split; [rewrite Hinc', Hinc; simpl; lia|]. split.
    + intros k Hk. rewrite Hkeep by lia.
      rewrite (recorded_get_entry _ _ _ _ _ Hrec). rewrite decide_False; [done|].
      intros (_ & _ & Heq). apply py_str_inj in Heq. lia.
    + intros [|j] dev Hj.
      * injection Hj as <-. simpl.
        replace (increment st + 1) with (increment st1) by lia.
        eexists. split; [|split].
        -- rewrite Hkeep by lia. by eapply recorded_stored.
        -- apply stamp_custom_name.
        -- rewrite Hinc. apply stamp_feagi_index.
      * simpl in Hj. replace (increment st + S (S j)) with (increment st1 + S j) by lia.
        by apply Hnames.
Qed.

(** X25: a contiguous group of actuators of one category met for the first
    time, the section holding an entry ["0"] for that category: the loop
    raises nothing and the [j]-th actuator of the group is recorded at
    index [j], so the indices of the group are 0, 1, 2, ... in the order
    of discovery. *)
Lemma actuator_group_indices c st l (base : entry) :
  Forall (λ dev, TRANSMISSION_TYPES !! dev.2.1 = Some c) l →
  get_entry (capabilities st) "output" c "0" = Some base →
  c ∉ list_to_not_delete_device st →
  ∃ st', run_loop actuator_step st l = Ok st' ∧
    ∀ j dev, l !! j = Some dev →
      ∃ e : entry,
        get_entry (capabilities st') "output" c (py_str j) = Some e ∧
        e !! "custom_name" = Some (VStr dev.1) ∧
        e !! "feagi_index" = Some (VInt (Z.of_nat j)).
Proof.
  intros Hall Hbase Hnew. destruct l as [|[n [ty r]] l].
  - exists st. split; [done|]. intros j dev Hj. by rewrite lookup_nil in Hj.
  - apply list.Forall_cons in Hall as [Hty Hall]. simpl in Hty.
    destruct (actuator_step_first st n ty r c base Hty Hbase Hnew)
      as (st1 & Hstep & Hrec & Hinc).
    destruct (actuator_block_indices c l st1 Hall) as (st' & Hrun & _ & Hkeep & Hnames).
    { apply (recorded_same_keys _ _ _ _ _ Hrec). by eapply recorded_in_section. }
    { apply (recorded_seen _ _ _ _ _ Hrec). by right. }
    exists st'. split; [by rewrite run_loop_cons, Hstep|].
    intros [|j] dev Hj.
    + injection Hj as <-. simpl. eexists. split; [|split].
      * rewrite Hkeep by lia. rewrite <- Hinc. by eapply recorded_stored.
      * apply stamp_custom_name.
      * apply stamp_feagi_index.
    + simpl in Hj. destruct (Hnames j dev Hj) as (e & He & Hn & Hi).
      rewrite Hinc in He, Hi. simpl in He, Hi. eauto.
Qed.

(** ** Indices when categories are met out of order *)

(** C5 (what the code does for a servo whose index is assigned again):
    on the actuators [a], [b] (servo), [m] (motor), [c] (servo) the servo
    [b], with declared range [-2, 2], is stored at servo index ["1"] with
    that range as long as the loop stops there, but [c] is assigned
    index 1 again and overwrites it.  The servo category that is written
    out holds two entries for three servos: [a] at ["0"] and, at ["1"],
    [c] with its range [-3, 3] on top of the motor's record; the range of
    [b] is nowhere in the output. *)
Theorem interleaved_actuator_limits_lost :
  let template_servo :=
    <["max_value" := VFloat (Qmake 180 1)]>
      (<["min_value" := VFloat (Qmake 0 1)]> (example_entry "template_servo")) in
  let template_motor :=
    <["max_power" := VFloat (Qmake 100 1)]> (example_entry "template_motor") in
  ∃ final_ab final,
    reconcile example_template [] (take 2 interleaved_actuators) = Ok final_ab ∧
    get_field final_ab "output" "servo" "1" "custom_name" = Some (VStr "b") ∧
    get_field final_ab "output" "servo" "1" "min_value" = Some (VFloat (Qmake (-2) 1)) ∧
    get_field final_ab "output" "servo" "1" "max_value" = Some (VFloat (Qmake 2 1)) ∧
    reconcile example_template [] interleaved_actuators = Ok final ∧
    get_category final "output" "servo"
    = Some {[ "0" := stamp "a" 0
                       (overwrite_limits "servo" (Qmake (-1) 1, Qmake 1 1) template_servo);
              "1" := stamp "c" 1
                       (overwrite_limits "servo" (Qmake (-3) 1, Qmake 3 1)
                          (stamp "m" 0
                             (overwrite_limits "motor" (Qmake 0 1, Qmake 5 1)
                                template_motor))) ]} ∧
    get_field final "output" "servo" "1" "custom_name" = Some (VStr "c") ∧
    get_field final "output" "servo" "1" "min_value" = Some (VFloat (Qmake (-3) 1)) ∧
    get_field final "output" "servo" "1" "max_value" = Some (VFloat (Qmake 3 1)) ∧
    get_entry final "output" "servo" "2" = None.
Proof.
  intros template_servo template_motor.
  exists (result_get ∅ (reconcile example_template [] (take 2 interleaved_actuators))),
         (result_get ∅ (reconcile example_template [] interleaved_actuators)).
  split_and!; vm_refl.
Qed.

(** C1 (what the code does on a scene whose devices of one category are
    not contiguous): the sensors [g1], [g2] (gyro), [p1] (proximity), [g3]
    (gyro) get the indices 0, 1, 0, 1 instead of 0, 1, 0, 2, because the
    proximity sensor reset the one counter.  The capabilities written
    out have the third gyro at index ["1"], carrying the fields of the
    proximity template, no gyro at index ["2"] and no record of [g2];
    the actuators [a], [b] (servo), [m] (motor), [c] (servo) collide in
    the same way. *)
Theorem interleaved_categories_collide :
  ∃ final,
    build_sensor_information interleaved_xml_input interleaved_model_sensors []
      = Ok interleaved_sensors ∧
    generate_capabilities interleaved_xml_input ∅ interleaved_model_sensors []
      example_template
      = reconcile example_template interleaved_sensors [] ∧
    reconcile example_template interleaved_sensors interleaved_actuators = Ok final ∧
    get_field final "input" "gyro" "0" "custom_name" = Some (VStr "g1") ∧
    get_field final "input" "gyro" "1" "custom_name" = Some (VStr "g3") ∧
    get_field final "input" "gyro" "1" "feagi_index" = Some (VInt 1) ∧
    get_field final "input" "gyro" "1" "max_value" = Some (VFloat (Qmake 50 1)) ∧
    get_entry final "input" "gyro" "2" = None ∧
    get_field final "output" "servo" "0" "custom_name" = Some (VStr "a") ∧
    get_field final "output" "servo" "1" "custom_name" = Some (VStr "c") ∧
    get_field final "output" "servo" "1" "max_power" = Some (VFloat (Qmake 5 1)) ∧
    get_entry final "output" "servo" "2" = None.
Proof.
  exists (result_get ∅
            (reconcile example_template interleaved_sensors interleaved_actuators)).
  split_and!; vm_refl.
Qed.

(** * Further properties of the script *)

(** ** The command line *)

Lemma clean_args_acc args : ∀ skip_next cleaned_args,
  clean_args skip_next args cleaned_args = cleaned_args ++ clean_args skip_next args [].
Proof.
  induction args as [|arg rest IH]; intros skip_next acc; simpl.
  - by rewrite app_nil_r.
  - destruct skip_next; [apply IH|].
    case_bool_decide; [apply IH|].
    rewrite (IH false (acc ++ [arg])), (IH false [arg]).
    by rewrite <- app_assoc.
Qed.

Lemma clean_args_spec args : ∀ skip_next,
  ("--model_xml_path" ∉ clean_args skip_next args []) ∧
  (clean_args skip_next args [] `sublist_of` args).
Proof.
  induction args as [|arg rest IH]; intros skip_next; simpl.
  - split; [apply not_elem_of_nil | done].
  - destruct skip_next.
    { destruct (IH false) as [Hno Hsub]. split; [done|]. by apply sublist_cons. }
    case_bool_decide as Harg.
    { destruct (IH true) as [Hno Hsub]. split; [done|]. by apply sublist_cons. }
    rewrite clean_args_acc. simpl. destruct (IH false) as [Hno Hsub]. split.
    + rewrite not_elem_of_cons. split; [by intros <-|done].
    + by apply sublist_skip.
Qed.

Lemma clean_args_no_flag args :
  "--model_xml_path" ∉ args → clean_args false args [] = args.
Proof.
  induction args as [|arg rest IH]; intros Hno; simpl; [done|].
  apply not_elem_of_cons in Hno as [Hne Hno].
  rewrite bool_decide_eq_false_2 by done.
  rewrite clean_args_acc. simpl. by rewrite IH.
Qed.

(** X1: the cleaned command line keeps the program name, never holds the
    flag [--model_xml_path], and holds only arguments of the original
    command line, in their order. *)
Theorem cleaned_argv_has_no_flag (argv0 : string) (args : list string) :
  ∃ cleaned_args,
    cleaned_argv (argv0 :: args) = Ok (argv0 :: cleaned_args) ∧
    ("--model_xml_path" ∉ cleaned_args) ∧
    (cleaned_args `sublist_of` args).
Proof.
  exists (clean_args false args []). split; [done|]. apply clean_args_spec.
Qed.

(** X2: up to the first occurrence of the flag the arguments are kept;
    the flag and its value (an argument the parser takes as such: one
    that does not start with ["-"]) are dropped, and cleaning goes on
    with what follows. *)
Theorem cleaned_argv_drops_flag_and_value (argv0 value : string) (pre post : list string) :
  "--model_xml_path" ∉ pre →
  plain_argument value = true →
  cleaned_argv (argv0 :: pre ++ "--model_xml_path" :: value :: post)
  = Ok (argv0 :: pre ++ clean_args false post []).
Proof.
  intros Hpre _. unfold cleaned_argv. simpl. rewrite drop_0. f_equal. f_equal.
  induction pre as [|arg pre IH]; simpl.
  - done.
  - apply not_elem_of_cons in Hpre as [Hne Hpre].
    rewrite bool_decide_eq_false_2 by done.
    rewrite clean_args_acc. simpl. by rewrite IH.
Qed.

(** X2 on [prog -v --model_xml_path scene.xml --port 3000]. *)
Lemma cleaned_argv_drops_flag_and_value_witness :
  cleaned_argv ("prog" :: ["-v"] ++ "--model_xml_path" :: "scene.xml" :: ["--port"; "3000"])
  = Ok ("prog" :: ["-v"] ++ clean_args false ["--port"; "3000"] []).
Proof.
  apply (cleaned_argv_drops_flag_and_value "prog" "scene.xml" ["-v"] ["--port"; "3000"]).
  - vm_decide.
  - reflexivity.
Defined.

(** X3: cleaning is idempotent: a command line that was cleaned is left
    as it is by a second cleaning. *)
Theorem cleaned_argv_idempotent (argv cleaned : list string) :
  cleaned_argv argv = Ok cleaned → cleaned_argv cleaned = Ok cleaned.
Proof.
  destruct argv as [|argv0 args]; [done|]. intros [= <-].
  unfold cleaned_argv at 1. simpl. rewrite drop_0. f_equal. f_equal.
  apply clean_args_no_flag, clean_args_spec.
Qed.

Lemma cleaned_argv_idempotent_witness :
  cleaned_argv ["prog"; "--port"; "3000"] = Ok ["prog"; "--port"; "3000"].
Proof.
  apply (cleaned_argv_idempotent
           ["prog"; "--model_xml_path"; "scene.xml"; "--port"; "3000"]).
  vm_refl.
Defined.

(** ** The scene file *)

Lemma section_types_snoc (children : list element) (el : element) :
  section_types (children ++ [el]) = <[attrib_name el := tag el]> (section_types children).
Proof. unfold section_types. by rewrite foldl_snoc. Qed.

(** Every recorded type is the tag of a child of that name. *)
Lemma section_types_Some (children : list element) k t :
  section_types children !! k = Some t →
  ∃ el, el ∈ children ∧ attrib_name el = k ∧ tag el = t.
Proof.
  induction children as [|el children IH] using rev_ind.
  - unfold section_types. simpl. by rewrite lookup_empty.
  - rewrite section_types_snoc, lookup_insert. case_decide as Hk.
    + intros [= <-]. exists el. split; [|done].
      apply elem_of_app. right. by left.
    + intros (el' & Hin & Hel')%IH. exists el'. split; [|done].
      apply elem_of_app. by left.
Qed.

(** The last child of a name decides the type recorded under it. *)
Lemma section_types_last (pre post : list element) (el : element) :
  Forall (λ el', attrib_name el' ≠ attrib_name el) post →
  section_types (pre ++ el :: post) !! attrib_name el = Some (tag el).
Proof.
  induction post as [|el' post IH] using rev_ind; intros Hpost.
  - rewrite section_types_snoc. apply lookup_insert_eq.
  - apply Forall_app in Hpost as [Hpost Hel'].
    apply list.Forall_cons in Hel' as [Hne _].
    rewrite app_comm_cons, app_assoc, section_types_snoc.
    rewrite lookup_insert_ne by done. by apply IH.
Qed.

Lemma by_name_lookup (d : gmap (option string) string) (n : string) :
  by_name d !! n = d !! Some n.
Proof.
  unfold by_name. revert d.
  apply (map_fold_weak_ind (λ (r : gmap string string) (m : gmap (option string) string),
    r !! n = m !! Some n)).
  - by rewrite !lookup_empty.
  - intros [k|] v m r Hfresh IH.
    + destruct (decide (k = n)) as [->|Hne].
      * by rewrite !lookup_insert_eq.
      * rewrite !lookup_insert_ne; [done|congruence|done].
    + by rewrite lookup_insert_ne.
Qed.

(** X4: [get_sensors] after [get_actuators] always gives a dictionary
    with both keys; under each, a child of the section that no later child
    of the same section shares its name with is recorded with its own tag
    (of two children of one name the later one wins), and a section that
    the file lacks gives an empty dictionary. *)
Theorem scene_types_last_wins (actuator_section sensor_section : option (list element)) :
  let xml := get_sensors sensor_section (get_actuators actuator_section) in
  ∃ output input,
    xml !! "output" = Some output ∧ xml !! "input" = Some input ∧
    (actuator_section = None → output = ∅) ∧
    (sensor_section = None → input = ∅) ∧
    (∀ pre el post,
        actuator_section = Some (pre ++ el :: post) →
        Forall (λ el', attrib_name el' ≠ attrib_name el) post →
        output !! attrib_name el = Some (tag el)) ∧
    (∀ pre el post,
        sensor_section = Some (pre ++ el :: post) →
        Forall (λ el', attrib_name el' ≠ attrib_name el) post →
        input !! attrib_name el = Some (tag el)).
Proof.
  intros xml.
  exists (section_types (default [] actuator_section)),
         (section_types (default [] sensor_section)).
  split_and!.
  - unfold xml, get_sensors, get_actuators.
    destruct sensor_section, actuator_section; simpl;
      rewrite ?insert_insert_eq, ?lookup_insert_ne by done;
      by rewrite ?lookup_insert_ne, ?lookup_insert_eq by done.
  - unfold xml, get_sensors.
    destruct sensor_section; simpl;
      by rewrite ?insert_insert_eq, lookup_insert_eq.
  - by intros ->.
  - by intros ->.
  - intros pre el post -> Hpost. simpl. by apply section_types_last.
  - intros pre el post -> Hpost. simpl. by apply section_types_last.
Qed.

(** ** The information dictionaries *)

Lemma dict_set_fresh {V : Type} (k : string) (v : V) (d : list (string * V)) :
  k ∉ d.*1 → dict_set k v d = d ++ [(k, v)].
Proof.
  induction d as [|[k' v'] d IH]; simpl; intros Hk; [done|].
  apply not_elem_of_cons in Hk as [Hne Hk].
  rewrite bool_decide_eq_false_2 by done. by rewrite IH.
Qed.

Lemma build_sensor_information_app xml_input sensors : ∀ info0,
  NoDup (info0.*1 ++ descriptor_names sensors) →
  Forall (λ s, is_Some (xml_input !! descriptor_name s.1 s.2)) sensors →
  ∃ info,
    build_sensor_information xml_input sensors info0 = Ok (info0 ++ info) ∧
    info.*1 = descriptor_names sensors ∧
    Forall (λ kt, xml_input !! kt.1 = Some kt.2) info.
Proof.
  induction sensors as [|[name ty] sensors IH]; intros info0 Hnd Hall.
  - exists []. by rewrite app_nil_r.
  - apply list.Forall_cons in Hall as [[t Ht] Hall]. simpl in Ht.
    simpl. unfold getitem. rewrite Ht. simpl.
    unfold descriptor_names in Hnd. simpl in Hnd. apply list.NoDup_app in Hnd as (Hnd0 & Hdisj & Hnd1).
    apply list.NoDup_cons in Hnd1 as [Hfresh1 Hnd1].
    rewrite dict_set_fresh by (intros Hin; apply (Hdisj _ Hin); by left).
    destruct (IH (info0 ++ [(descriptor_name name ty, t)])) as (info & Hrun & Hkeys & Hvals).
    { rewrite fmap_app. simpl. apply list.NoDup_app. split; [|split; [|done]].
      - apply list.NoDup_app. split; [done|]. split; [|apply NoDup_singleton].
        intros k Hk ->%list_elem_of_singleton. apply (Hdisj _ Hk). by left.
      - intros k [Hk| ->%list_elem_of_singleton]%elem_of_app Hin.
        + apply (Hdisj _ Hk). by right.
        + done. }
    { done. }
    exists ((descriptor_name name ty, t) :: info). split; [|split].
    + rewrite Hrun. by rewrite <- app_assoc.
    + unfold descriptor_names in *. rewrite !fmap_cons. by rewrite Hkeys.
    + by apply list.Forall_cons.
Qed.

(** X5: when the descriptor names of the model's sensors are distinct and
    each is declared in the scene file, the sensor loop raises nothing
    and [sensor_information] lists one descriptor per sensor, in the
    order of the model, each with the tag the file declares for its
    descriptor name. *)
Theorem sensor_information_in_model_order (xml_input : gmap string string)
    (sensors : list (string * Z)) :
  NoDup (descriptor_names sensors) →
  Forall (λ s, is_Some (xml_input !! descriptor_name s.1 s.2)) sensors →
  ∃ sensor_information,
    build_sensor_information xml_input sensors [] = Ok sensor_information ∧
    sensor_information.*1 = descriptor_names sensors ∧
    Forall (λ kt, xml_input !! kt.1 = Some kt.2) sensor_information.
Proof.
  intros Hnd Hall.
  destruct (build_sensor_information_app xml_input sensors [] Hnd Hall)
    as (info & Hrun & Hkeys & Hvals).
  by exists info.
Qed.

Lemma sensor_information_in_model_order_witness :
  ∃ sensor_information,
    build_sensor_information interleaved_xml_input interleaved_model_sensors []
      = Ok sensor_information ∧
    sensor_information.*1 = descriptor_names interleaved_model_sensors ∧
    Forall (λ kt, interleaved_xml_input !! kt.1 = Some kt.2) sensor_information.
Proof.
  apply (sensor_information_in_model_order interleaved_xml_input interleaved_model_sensors).
  - vm_decide.
  - vm_decide.
Defined.

Lemma build_sensor_information_present xml_input sensors : ∀ info0,
  Forall (λ s, is_Some (xml_input !! descriptor_name s.1 s.2)) sensors →
  ∃ info, build_sensor_information xml_input sensors info0 = Ok info.
Proof.
  induction sensors as [|[name ty] sensors IH]; intros info0 Hall; simpl.
  - eauto.
  - apply list.Forall_cons in Hall as [[t Ht] Hall]. simpl in Ht.
    unfold getitem. rewrite Ht. simpl. by apply IH.
Qed.

Lemma build_sensor_information_missing xml_input sensors : ∀ info0,
  Exists (λ s, xml_input !! descriptor_name s.1 s.2 = None) sensors →
  build_sensor_information xml_input sensors info0 = Raise KeyError.
Proof.
  induction sensors as [|[name ty] sensors IH]; intros info0 Hex; simpl.
  - by apply Exists_nil in Hex.
  - unfold getitem. destruct (xml_input !! descriptor_name name ty) as [t|] eqn:Ht; simpl.
    + apply IH. apply Exists_cons in Hex as [Hhd|Htl]; [|done].
      simpl in Hhd. congruence.
    + done.
Qed.

Lemma build_actuator_information_present xml_output actuators : ∀ info0,
  Forall (λ a, is_Some (xml_output !! a.1)) actuators →
  ∃ info, build_actuator_information xml_output actuators info0 = Ok info.
Proof.
  induction actuators as [|[name r] actuators IH]; intros info0 Hall; simpl.
  - eauto.
  - apply list.Forall_cons in Hall as [[t Ht] Hall]. simpl in Ht.
    unfold getitem. rewrite Ht. simpl. by apply IH.
Qed.

Lemma build_actuator_information_missing xml_output actuators : ∀ info0,
  Exists (λ a, xml_output !! a.1 = None) actuators →
  build_actuator_information xml_output actuators info0 = Raise KeyError.
Proof.
  induction actuators as [|[name r] actuators IH]; intros info0 Hex; simpl.
  - by apply Exists_nil in Hex.
  - unfold getitem. destruct (xml_output !! name) as [t|] eqn:Ht; simpl.
    + apply IH. apply Exists_cons in Hex as [Hhd|Htl]; [|done].
      simpl in Hhd. congruence.
    + done.
Qed.

(** X6: the two introspection loops raise exactly when the scene file
    declares no element under a name they look up, and then the
    exception is a [KeyError]: the sensor loop looks up the descriptor
    name (for raw type 7 the name without its last four characters, so
    declaring the full name is not enough), the actuator loop the name
    itself. *)
Theorem information_raises_iff_undeclared (xml_input xml_output : gmap string string)
    (sensors : list (string * Z)) (actuators : list (string * (Q * Q))) :
  (build_sensor_information xml_input sensors [] = Raise KeyError ↔
   Exists (λ s, xml_input !! descriptor_name s.1 s.2 = None) sensors) ∧
  ((∃ info, build_sensor_information xml_input sensors [] = Ok info) ↔
   Forall (λ s, is_Some (xml_input !! descriptor_name s.1 s.2)) sensors) ∧
  (build_actuator_information xml_output actuators [] = Raise KeyError ↔
   Exists (λ a, xml_output !! a.1 = None) actuators) ∧
  ((∃ info, build_actuator_information xml_output actuators [] = Ok info) ↔
   Forall (λ a, is_Some (xml_output !! a.1)) actuators).
Proof.
  assert (∀ {A} (P : A → option string) (l : list A),
    Forall (λ x, is_Some (P x)) l ∨ Exists (λ x, P x = None) l) as Hdec.
  { intros A P l. induction l as [|x l [IH|IH]].
    - left. constructor.
    - destruct (P x) eqn:Hx.
      + left. constructor; [by rewrite Hx|done].
      + right. by left.
    - right. by right. }
  split_and!.
  - split; [|apply build_sensor_information_missing].
    intros Hraise.
    destruct (Hdec _ (λ s, xml_input !! descriptor_name s.1 s.2) sensors) as [Hall|Hex];
      [|done].
    destruct (build_sensor_information_present _ _ [] Hall) as [info Hok]. congruence.
  - split; [|apply build_sensor_information_present].
    intros [info Hok].
    destruct (Hdec _ (λ s, xml_input !! descriptor_name s.1 s.2) sensors) as [Hall|Hex];
      [done|].
    rewrite (build_sensor_information_missing _ _ [] Hex) in Hok. done.
  - split; [|apply build_actuator_information_missing].
    intros Hraise.
    destruct (Hdec _ (λ a, xml_output !! a.1) actuators) as [Hall|Hex]; [|done].
    destruct (build_actuator_information_present _ _ [] Hall) as [info Hok]. congruence.
  - split; [|apply build_actuator_information_present].
    intros [info Hok].
    destruct (Hdec _ (λ a, xml_output !! a.1) actuators) as [Hall|Hex]; [done|].
    rewrite (build_actuator_information_missing _ _ [] Hex) in Hok. done.
Qed.

(** A sensor of raw type 7 declared under its full name only. *)
Example stripped_name_not_declared :
  build_sensor_information {[ "lidar0001" := "rangefinder" ]} [("lidar0001", 7%Z)] []
  = Raise KeyError.
Proof. vm_refl. Qed.

Lemma scene_child_type (scene : list (string * (string * (Q * Q)))) a :
  NoDup scene.*1 → a ∈ scene →
  section_types ((λ a, Element a.2.1 (Some a.1)) <$> scene) !! Some a.1 = Some a.2.1.
Proof.
  intros Hnd (pre & post & ->)%list_elem_of_split.
  rewrite fmap_app, fmap_cons.
  apply (section_types_last _ _ (Element a.2.1 (Some a.1))).
  rewrite fmap_app, fmap_cons in Hnd.
  apply list.NoDup_app in Hnd as (_ & _ & Hnd).
  apply list.NoDup_cons in Hnd as [Hfresh _].
  apply list.Forall_forall. intros el (b & -> & Hb)%list_elem_of_fmap. simpl.
  intros [= Heq]. apply Hfresh. rewrite <- Heq. apply list_elem_of_fmap. eauto.
Qed.

Lemma build_actuator_information_scene xml_output
    (scene : list (string * (string * (Q * Q)))) : ∀ info0,
  NoDup (info0.*1 ++ scene.*1) →
  Forall (λ a, xml_output !! a.1 = Some a.2.1) scene →
  build_actuator_information xml_output ((λ a, (a.1, a.2.2)) <$> scene) info0
  = Ok (info0 ++ scene).
Proof.
  induction scene as [|[name [ty r]] scene IH]; intros info0 Hnd Hall; simpl.
  - by rewrite app_nil_r.
  - apply list.Forall_cons in Hall as [Ht Hall]. simpl in Ht.
    unfold getitem. rewrite Ht. simpl.
    simpl in Hnd. apply list.NoDup_app in Hnd as (Hnd0 & Hdisj & Hnd1).
    apply list.NoDup_cons in Hnd1 as [Hfresh1 Hnd1].
    rewrite dict_set_fresh by (intros Hin; apply (Hdisj _ Hin); by left).
    rewrite IH; [by rewrite <- app_assoc| |done].
    rewrite fmap_app. simpl. apply list.NoDup_app. split; [|split; [|done]].
    + apply list.NoDup_app. split; [done|]. split; [|apply NoDup_singleton].
      intros k Hk ->%list_elem_of_singleton. apply (Hdisj _ Hk). by left.
    + intros k [Hk| ->%list_elem_of_singleton]%elem_of_app Hin.
      * apply (Hdisj _ Hk). by right.
      * done.
Qed.

(** X7: a scene whose actuators have distinct names comes back as
    declared: reading the actuator section with [get_actuators] and
    looking every actuator of the model up in it gives
    [actuator_information] with one entry per actuator, in scene order,
    holding the tag it is declared with and its control range. *)
Theorem actuator_information_from_scene (scene : list (string * (string * (Q * Q)))) :
  NoDup scene.*1 →
  ∃ xml_output,
    get_actuators (Some ((λ a, Element a.2.1 (Some a.1)) <$> scene)) !! "output"
      = Some xml_output ∧
    build_actuator_information (by_name xml_output) ((λ a, (a.1, a.2.2)) <$> scene) []
      = Ok scene.
Proof.
  intros Hnd. eexists. split.
  - unfold get_actuators. apply lookup_insert_eq.
  - apply (build_actuator_information_scene _ scene []); [done|].
    apply list.Forall_forall. intros a Ha. rewrite by_name_lookup.
    by apply scene_child_type.
Qed.

Lemma actuator_information_from_scene_witness :
  ∃ xml_output,
    get_actuators (Some ((λ a, Element a.2.1 (Some a.1)) <$> example_actuators)) !! "output"
      = Some xml_output ∧
    build_actuator_information (by_name xml_output)
      ((λ a, (a.1, a.2.2)) <$> example_actuators) []
      = Ok example_actuators.
Proof.
  apply (actuator_information_from_scene example_actuators). vm_decide.
Defined.

(** ** The lookup tables *)

Lemma SENSING_TYPES_range ty c :
  SENSING_TYPES !! ty = Some c → c ∈ sensor_categories.
Proof.
  unfold SENSING_TYPES, sensor_categories. rewrite !lookup_insert, lookup_singleton.
  repeat case_decide; intros [= <-]; set_unfold; tauto.
Qed.

Lemma TRANSMISSION_TYPES_range ty c :
  TRANSMISSION_TYPES !! ty = Some c → c ∈ actuator_categories.
Proof.
  unfold TRANSMISSION_TYPES, actuator_categories. rewrite !lookup_insert, lookup_singleton.
  repeat case_decide; intros [= <-]; set_unfold; tauto.
Qed.

Lemma categories_disjoint c : c ∈ sensor_categories → c ∉ actuator_categories.
Proof.
  unfold sensor_categories, actuator_categories. set_unfold.
  intros [->|[->|[->|[]]]] [?|[?|[]]]; discriminate.
Qed.

(** ** When reconciliation raises *)

(** The part of [template_ready] that the loops keep. *)
Lemma ready_recorded I_O c stored st st' :
  recorded I_O c stored st st' →
  (∀ s c', is_Some (get_category (capabilities st) s c') →
           is_Some (get_entry (capabilities st) s c' "0")) →
  ∀ s c', is_Some (get_category (capabilities st') s c') →
          is_Some (get_entry (capabilities st') s c' "0").
Proof.
  intros Hrec Hready s c' Hcat.
  apply (recorded_same_keys _ _ _ _ _ Hrec) in Hcat.
  rewrite (recorded_get_entry _ _ _ _ _ Hrec). case_decide; [eauto|]. by apply Hready.
Qed.

Lemma sensor_step_ready st dev :
  is_Some (capabilities st !! "input") →
  (∀ s c, is_Some (get_category (capabilities st) s c) →
          is_Some (get_entry (capabilities st) s c "0")) →
  ∃ st', sensor_step st dev = Ok st' ∧
    (∀ s c, is_Some (get_category (capabilities st') s c) →
            is_Some (get_entry (capabilities st') s c "0")).
Proof.
  destruct dev as [n ty]. intros Hinput Hready.
  destruct (SENSING_TYPES !! ty) as [c|] eqn:Hty.
  2:{ exists st. split; [|done]. apply sensor_step_skip; [done|by left]. }
  destruct (get_category (capabilities st) "input" c) as [indexed|] eqn:Hcat.
  2:{ exists st. split; [|done]. apply sensor_step_skip; [done|]. right. eauto. }
  destruct (decide (c ∈ list_to_not_delete_device st)) as [Hseen|Hnew].
  - destruct (sensor_step_again st n ty c Hty) as (st' & Hstep & Hrec & _);
      [by rewrite Hcat|done|].
    exists st'. split; [done|]. by eapply ready_recorded.
  - destruct (Hready "input" c) as [base Hbase]; [by rewrite Hcat|].
    destruct (sensor_step_first st n ty c base Hty Hbase Hnew) as (st' & Hstep & Hrec & _).
    exists st'. split; [done|]. by eapply ready_recorded.
Qed.

Lemma actuator_step_ready st dev :
  is_Some (capabilities st !! "output") →
  (∀ s c, is_Some (get_category (capabilities st) s c) →
          is_Some (get_entry (capabilities st) s c "0")) →
  ∃ st', actuator_step st dev = Ok st' ∧
    (∀ s c, is_Some (get_category (capabilities st') s c) →
            is_Some (get_entry (capabilities st') s c "0")).
Proof.
  destruct dev as [n [ty r]]. intros Houtput Hready.
  destruct (TRANSMISSION_TYPES !! ty) as [c|] eqn:Hty.
  2:{ exists st. split; [|done]. apply actuator_step_skip; [done|by left]. }
  destruct (get_category (capabilities st) "output" c) as [indexed|] eqn:Hcat.
  2:{ exists st. split; [|done]. apply actuator_step_skip; [done|]. right. eauto. }
  destruct (decide (c ∈ list_to_not_delete_device st)) as [Hseen|Hnew].
  - destruct (actuator_step_again st n ty r c Hty) as (st' & Hstep & Hrec & _);
      [by rewrite Hcat|done|].
    exists st'. split; [done|]. by eapply ready_recorded.
  - destruct (Hready "output" c) as [base Hbase]; [by rewrite Hcat|].
    destruct (actuator_step_first st n ty r c base Hty Hbase Hnew)
      as (st' & Hstep & Hrec & _).
    exists st'. split; [done|]. by eapply ready_recorded.
Qed.

Lemma run_sensors_ready l : ∀ st,
  is_Some (capabilities st !! "input") →
  (∀ s c, is_Some (get_category (capabilities st) s c) →
          is_Some (get_entry (capabilities st) s c "0")) →
  ∃ st', run_loop sensor_step st l = Ok st' ∧
    (∀ s c, is_Some (get_category (capabilities st') s c) →
            is_Some (get_entry (capabilities st') s c "0")).
Proof.
  induction l as [|dev l IH]; intros st Hinput Hready.
  - by exists st.
  - destruct (sensor_step_ready st dev Hinput Hready) as (st1 & Hstep & Hready1).
    destruct (IH st1) as (st' & Hrun & Hready'); [|done|].
    { apply sensor_step_evolves in Hstep as (_ & [Hsec _] & _). by apply Hsec. }
    exists st'. split; [|done]. by rewrite run_loop_cons, Hstep.
Qed.

Lemma run_actuators_ready l : ∀ st,
  is_Some (capabilities st !! "output") →
  (∀ s c, is_Some (get_category (capabilities st) s c) →
          is_Some (get_entry (capabilities st) s c "0")) →
  ∃ st', run_loop actuator_step st l = Ok st' ∧
    (∀ s c, is_Some (get_category (capabilities st') s c) →
            is_Some (get_entry (capabilities st') s c "0")).
Proof.
  induction l as [|dev l IH]; intros st Houtput Hready.
  - by exists st.
  - destruct (actuator_step_ready st dev Houtput Hready) as (st1 & Hstep & Hready1).
    destruct (IH st1) as (st' & Hrun & Hready'); [|done|].
    { apply actuator_step_evolves in Hstep as (_ & [Hsec _] & _). by apply Hsec. }
    exists st'. split; [|done]. by rewrite run_loop_cons, Hstep.
Qed.

Lemma template_ready_entries (template : caps) :
  map_Forall (λ _ (sec : section),
      map_Forall (λ _ (indexed : category), is_Some (indexed !! "0")) sec)
    template →
  ∀ s c, is_Some (get_category template s c) → is_Some (get_entry template s c "0").
Proof.
  intros Hall s c [indexed Hcat].
  apply get_category_Some in Hcat as (sec & Hsec & Hcat).
  pose proof (map_Forall_lookup_1 _ _ _ _ Hall Hsec) as Hsec'. simpl in Hsec'.
  destruct (map_Forall_lookup_1 _ _ _ _ Hsec' Hcat) as [e He].
  exists e. apply get_entry_Some. exists indexed. split; [|done].
  apply get_category_Some. eauto.
Qed.

(** X8: on a template that has both sections and, under every category,
    an entry at index ["0"], reconciliation raises nothing, whatever the
    scene holds. *)
Theorem reconcile_succeeds_on_ready_template (template : caps)
    (sensor_information : list (string * string))
    (actuator_information : list (string * (string * (Q * Q)))) :
  template_ready template →
  ∃ final, reconcile template sensor_information actuator_information = Ok final.
Proof.
  intros (Hinput & Houtput & Hall).
  pose proof (template_ready_entries template Hall) as Hready.
  destruct (run_sensors_ready sensor_information (initial_state template) Hinput Hready)
    as (st0 & Hs & Hready0).
  destruct (run_actuators_ready actuator_information (begin_actuators st0))
    as (st & Ha & _); [|done|].
  { apply run_sensors_evolves in Hs as (_ & [Hsec _] & _). by apply Hsec. }
  eexists. unfold reconcile, reconcile_loops. by rewrite Hs, rbind_Ok_l, Ha.
Qed.

Lemma reconcile_succeeds_on_ready_template_witness :
  ∃ final, reconcile example_template interleaved_sensors interleaved_actuators = Ok final.
Proof.
  apply (reconcile_succeeds_on_ready_template example_template).
  split_and!; vm_decide.
Defined.

Lemma sensor_step_raise st dev e : sensor_step st dev = Raise e → e = KeyError.
Proof.
  destruct dev as [n ty]. unfold sensor_step, getitem.
  destruct (capabilities st !! "input") as [input|]; simpl; [|congruence].
  destruct (SENSING_TYPES !! ty) as [c|]; [|congruence].
  destruct (input !! c) as [indexed|]; [|congruence].
  destruct (next_increment _ _ c) as [inc seen].
  case_bool_decide; simpl; [|congruence].
  destruct (indexed !! py_str inc); simpl; congruence.
Qed.

Lemma actuator_step_raise st dev e : actuator_step st dev = Raise e → e = KeyError.
Proof.
  destruct dev as [n [ty r]]. unfold actuator_step, getitem.
  destruct (capabilities st !! "output") as [output|]; simpl; [|congruence].
  destruct (TRANSMISSION_TYPES !! ty) as [c|]; [|congruence].
  destruct (output !! c) as [indexed|]; [|congruence].
  destruct (next_increment _ _ c) as [inc seen].
  case_bool_decide; simpl; [|congruence].
  destruct (indexed !! py_str inc); simpl; congruence.
Qed.

Lemma run_loop_raise {S D : Type} (body : S → D → result S) (err : error) :
  (∀ st d e, body st d = Raise e → e = err) →
  ∀ l st e, run_loop body st l = Raise e → e = err.
Proof.
  intros Hbody. induction l as [|d l IH]; intros st e Hrun; [done|].
  rewrite run_loop_cons in Hrun.
  destruct (body st d) as [st1|e1] eqn:Hd; simpl in Hrun.
  - by eapply IH.
  - injection Hrun as <-. by eapply Hbody.
Qed.

(** A category that is a key of the section, is not in the list yet and
    has no entry ["0"] stops the loop at its first device. *)
Lemma run_sensors_no_base c l : ∀ st,
  c ∉ list_to_not_delete_device st →
  is_Some (get_category (capabilities st) "input" c) →
  get_entry (capabilities st) "input" c "0" = None →
  Exists (λ dev, SENSING_TYPES !! dev.2 = Some c) l →
  run_loop sensor_step st l = Raise KeyError.
Proof.
  induction l as [|[n ty] l IH]; intros st Hnew Hcat Hbase Hex.
  - by apply Exists_nil in Hex.
  - rewrite run_loop_cons.
    destruct (sensor_step st (n, ty)) as [st1|e] eqn:Hstep; simpl.
    2:{ by rewrite (sensor_step_raise _ _ _ Hstep). }
    apply sensor_step_inv in Hstep as [_ [[-> Hnone]|(c' & base & Hty & Hrec & _ & _ & Hb)]].
    + apply IH; [done..|]. apply Exists_cons in Hex as [Hhd|Htl]; [|done].
      simpl in Hhd. rewrite (Hnone c Hhd) in Hcat. by destruct Hcat.
    + destruct (decide (c' = c)) as [->|Hne].
      * rewrite (recorded_first _ _ _ _ _ Hrec Hnew) in Hb.
        rewrite bool_decide_eq_true_2, py_str_0 in Hb by done. congruence.
      * apply IH.
        -- rewrite (recorded_seen _ _ _ _ _ Hrec). intros [?|?]; [done|congruence].
        -- by apply (recorded_same_keys _ _ _ _ _ Hrec).
        -- rewrite (recorded_get_entry _ _ _ _ _ Hrec).
           rewrite decide_False; [done|]. intros (_ & ? & _). congruence.
        -- apply Exists_cons in Hex as [Hhd|Htl]; [|done]. simpl in Hhd. congruence.
Qed.

Lemma run_actuators_no_base c l : ∀ st,
  c ∉ list_to_not_delete_device st →
  is_Some (get_category (capabilities st) "output" c) →
  get_entry (capabilities st) "output" c "0" = None →
  Exists (λ dev, TRANSMISSION_TYPES !! dev.2.1 = Some c) l →
  run_loop actuator_step st l = Raise KeyError.
Proof.
  induction l as [|[n [ty r]] l IH]; intros st Hnew Hcat Hbase Hex.
  - by apply Exists_nil in Hex.
  - rewrite run_loop_cons.
    destruct (actuator_step st (n, (ty, r))) as [st1|e] eqn:Hstep; simpl.
    2:{ by rewrite (actuator_step_raise _ _ _ Hstep). }
    apply actuator_step_inv in Hstep
      as [_ [[-> Hnone]|(c' & base & Hty & Hrec & _ & _ & Hb)]].
    + apply IH; [done..|]. apply Exists_cons in Hex as [Hhd|Htl]; [|done].
      simpl in Hhd. rewrite (Hnone c Hhd) in Hcat. by destruct Hcat.
    + destruct (decide (c' = c)) as [->|Hne].
      * rewrite (recorded_first _ _ _ _ _ Hrec Hnew) in Hb.
        rewrite bool_decide_eq_true_2, py_str_0 in Hb by done. congruence.
      * apply IH.
        -- rewrite (recorded_seen _ _ _ _ _ Hrec). intros [?|?]; [done|congruence].
        -- by apply (recorded_same_keys _ _ _ _ _ Hrec).
        -- rewrite (recorded_get_entry _ _ _ _ _ Hrec).
           rewrite decide_False; [done|]. intros (_ & ? & _). congruence.
        -- apply Exists_cons in Hex as [Hhd|Htl]; [|done]. simpl in Hhd. congruence.
Qed.

(** After the sensor loop the list holds sensor categories only. *)
Lemma run_sensors_seen_sensor_categories template l st c :
  run_loop sensor_step (initial_state template) l = Ok st →
  c ∈ list_to_not_delete_device st → c ∈ sensor_categories.
Proof.
  intros Hrun Hc.
  destruct (run_sensors_seen _ _ _ Hrun c Hc) as [Hnil|(n & ty & _ & Hty & _)].
  - by apply elem_of_nil in Hnil.
  - by eapply SENSING_TYPES_range.
Qed.

(** The sensor loop leaves the whole output section alone. *)
Lemma run_sensors_output_section l st st' :
  run_loop sensor_step st l = Ok st' →
  capabilities st' !! "output" = capabilities st !! "output".
Proof.
  revert l st st'.
  apply (run_loop_preserves sensor_step (λ st st',
    capabilities st' !! "output" = capabilities st !! "output")).
  - done.
  - intros ??? H1 H2. by rewrite H2.
  - intros st [n ty] st' Hstep.
    apply sensor_step_inv in Hstep as [_ [[-> _]|(c' & base & _ & Hrec & _)]]; [done|].
    destruct Hrec as (sec & indexed & _ & _ & _ & ->). by rewrite lookup_insert_ne.
Qed.

(** X9: a category that the template holds without an entry at index
    ["0"] makes reconciliation raise [KeyError] as soon as the scene has
    one device of that category, sensor or actuator, wherever the device
    comes in the order of discovery. *)
Theorem reconcile_raises_without_base (template : caps)
    (sensor_information : list (string * string))
    (actuator_information : list (string * (string * (Q * Q)))) (c : string) :
  (is_Some (get_category template "input" c) →
   get_entry template "input" c "0" = None →
   Exists (λ dev, SENSING_TYPES !! dev.2 = Some c) sensor_information →
   reconcile template sensor_information actuator_information = Raise KeyError) ∧
  (is_Some (get_category template "output" c) →
   get_entry template "output" c "0" = None →
   Exists (λ dev, TRANSMISSION_TYPES !! dev.2.1 = Some c) actuator_information →
   reconcile template sensor_information actuator_information = Raise KeyError).
Proof.
  split.
  - intros Hcat Hbase Hex. unfold reconcile, reconcile_loops.
    rewrite (run_sensors_no_base c sensor_information (initial_state template));
      [done| |done..].
    apply not_elem_of_nil.
  - intros Hcat Hbase Hex. unfold reconcile, reconcile_loops.
    destruct (run_loop sensor_step (initial_state template) sensor_information)
      as [st0|e] eqn:Hs; simpl.
    2:{ by rewrite (run_loop_raise sensor_step KeyError sensor_step_raise _ _ _ Hs). }
    rewrite (run_actuators_no_base c actuator_information (begin_actuators st0)); [done|..].
    + simpl. intros Hseen%(run_sensors_seen_sensor_categories _ _ _ _ Hs).
      apply categories_disjoint in Hseen. apply Hseen.
      apply Exists_exists in Hex as (dev & _ & Hdev).
      by eapply TRANSMISSION_TYPES_range.
    + simpl. apply run_sensors_evolves in Hs as (_ & [_ Hkeys] & _). by apply Hkeys.
    + simpl. unfold get_entry, get_category.
      rewrite (run_sensors_output_section _ _ _ Hs). exact Hbase.
    + done.
Qed.

Lemma reconcile_raises_without_base_witness :
  reconcile {[ "input" := {[ "gyro" := {[ "1" := example_entry "template_gyro" ]} ]};
               "output" := ∅ ]}
    [("imu_acc", "accelerometer"); ("head_gyro", "framequat")] [] = Raise KeyError.
Proof.
  apply (proj1 (reconcile_raises_without_base _ _ [] "gyro")).
  - vm_decide.
  - vm_refl.
  - vm_decide.
Defined.

(** ** The keys of the reconciled capabilities *)

Lemma run_sensors_records l : ∀ st st' n ty c,
  run_loop sensor_step st l = Ok st' →
  (n, ty) ∈ l → SENSING_TYPES !! ty = Some c →
  is_Some (get_category (capabilities st) "input" c) →
  c ∈ list_to_not_delete_device st'.
Proof.
  induction l as [|dev l IH]; intros st st' n ty c Hrun Hin Hty Hcat.
  - by apply elem_of_nil in Hin.
  - rewrite run_loop_cons in Hrun. apply rbind_Ok in Hrun as (st1 & Hd & Hrest).
    apply elem_of_cons in Hin as [<-|Hin].
    + apply run_sensors_evolves in Hrest as (Hmono & _). apply Hmono.
      apply sensor_step_inv in Hd as [_ [[-> Hnone]|(c' & base & Hty' & Hrec & _)]].
      * rewrite (Hnone c Hty) in Hcat. by destruct Hcat.
      * apply (recorded_seen _ _ _ _ _ Hrec). right. congruence.
    + eapply IH; [done..|].
      apply sensor_step_evolves in Hd as (_ & [_ Hkeys] & _). by apply Hkeys.
Qed.

Lemma run_actuators_records l : ∀ st st' n ty r c,
  run_loop actuator_step st l = Ok st' →
  (n, (ty, r)) ∈ l → TRANSMISSION_TYPES !! ty = Some c →
  is_Some (get_category (capabilities st) "output" c) →
  c ∈ list_to_not_delete_device st'.
Proof.
  induction l as [|dev l IH]; intros st st' n ty r c Hrun Hin Hty Hcat.
  - by apply elem_of_nil in Hin.
  - rewrite run_loop_cons in Hrun. apply rbind_Ok in Hrun as (st1 & Hd & Hrest).
    apply elem_of_cons in Hin as [<-|Hin].
    + apply run_actuators_evolves in Hrest as (Hmono & _). apply Hmono.
      apply actuator_step_inv in Hd as [_ [[-> Hnone]|(c' & base & Hty' & Hrec & _)]].
      * rewrite (Hnone c Hty) in Hcat. by destruct Hcat.
      * apply (recorded_seen _ _ _ _ _ Hrec). right. congruence.
    + eapply IH; [done..|].
      apply actuator_step_evolves in Hd as (_ & [_ Hkeys] & _). by apply Hkeys.
Qed.

Lemma reconcile_loops_records template sensor_information actuator_information st c :
  reconcile_loops template sensor_information actuator_information = Ok st →
  discovered template sensor_information actuator_information c →
  c ∈ list_to_not_delete_device st.
Proof.
  intros (st0 & Hs & Ha)%reconcile_loops_inv
    [(n & ty & Hin & Hty & Hcat)|(n & ty & r & Hin & Hty & Hcat)].
  - apply run_actuators_evolves in Ha as (Hmono & _). apply Hmono. simpl.
    by eapply run_sensors_records.
  - eapply run_actuators_records; [done..|]. simpl.
    apply run_sensors_evolves in Hs as (_ & [_ Hkeys] & _). by apply Hkeys.
Qed.

(** X10: the categories of a section that is written out are exactly the
    categories of that section of the template for which a device was
    discovered and recorded, in either loop: a category recorded by the
    sensor loop is also kept where the template has it in the output
    section, and the other way round. *)
Theorem final_categories_exactly (template : caps)
    (sensor_information : list (string * string))
    (actuator_information : list (string * (string * (Q * Q))))
    (final : caps) :
  reconcile template sensor_information actuator_information = Ok final →
  ∀ I_O c,
    is_Some (get_category final I_O c) ↔
    is_Some (get_category template I_O c) ∧
    discovered template sensor_information actuator_information c.
Proof.
  intros (st & Hloops & ->)%reconcile_inv I_O c.
  pose proof (reconcile_loops_evolves _ _ _ _ Hloops) as (_ & [_ Hkeys] & _).
  simpl in Hkeys. rewrite prune_get_category. split.
  - case_bool_decide as Hseen; [|by intros []].
    intros Hcat. split; [by apply Hkeys|]. by eapply reconcile_loops_seen.
  - intros [Hcat Hdisc].
    rewrite bool_decide_eq_true_2 by (by eapply reconcile_loops_records).
    by apply Hkeys.
Qed.

Lemma final_categories_exactly_witness :
  is_Some (get_category example_final "output" "motor") ↔
  is_Some (get_category example_template "output" "motor") ∧
  discovered example_template example_sensors example_actuators "motor".
Proof.
  apply (final_categories_exactly example_template example_sensors example_actuators).
  vm_refl.
Defined.

(** X11: pruning deletes categories, never sections: the capabilities
    that are written out have exactly the sections of the template, a
    section left without any category included. *)
Theorem final_sections_exactly (template : caps)
    (sensor_information : list (string * string))
    (actuator_information : list (string * (string * (Q * Q))))
    (final : caps) :
  reconcile template sensor_information actuator_information = Ok final →
  dom final = dom template.
Proof.
  intros (st & Hloops & ->)%reconcile_inv.
  apply reconcile_loops_evolves in Hloops as (_ & [Hsections _] & _).
  simpl in Hsections. apply set_eq. intros s.
  rewrite !elem_of_dom, prune_lookup, fmap_is_Some. symmetry. apply Hsections.
Qed.

Lemma final_sections_exactly_witness :
  dom (result_get ∅ (reconcile example_template [] [])) = dom example_template.
Proof.
  apply (final_sections_exactly example_template [] []). vm_refl.
Defined.

Lemma recorded_keeps_index I_O0 c0 stored a b I_O c device_id :
  recorded I_O0 c0 stored a b →
  is_Some (get_entry (capabilities a) I_O c device_id) →
  is_Some (get_entry (capabilities b) I_O c device_id).
Proof.
  intros Hrec. rewrite (recorded_get_entry _ _ _ _ _ Hrec). case_decide; eauto.
Qed.

Lemma run_sensors_keeps_index I_O c device_id l st st' :
  run_loop sensor_step st l = Ok st' →
  is_Some (get_entry (capabilities st) I_O c device_id) →
  is_Some (get_entry (capabilities st') I_O c device_id).
Proof.
  revert l st st'.
  apply (run_loop_preserves sensor_step (λ a b,
    is_Some (get_entry (capabilities a) I_O c device_id) →
    is_Some (get_entry (capabilities b) I_O c device_id))); [auto..|].
  intros a [n ty] b Hd.
  apply sensor_step_inv in Hd as [_ [[-> _]|(c' & base & _ & Hrec & _)]]; [done|].
  by eapply recorded_keeps_index.
Qed.

Lemma run_actuators_keeps_index I_O c device_id l st st' :
  run_loop actuator_step st l = Ok st' →
  is_Some (get_entry (capabilities st) I_O c device_id) →
  is_Some (get_entry (capabilities st') I_O c device_id).
Proof.
  revert l st st'.
  apply (run_loop_preserves actuator_step (λ a b,
    is_Some (get_entry (capabilities a) I_O c device_id) →
    is_Some (get_entry (capabilities b) I_O c device_id))); [auto..|].
  intros a [n [ty r]] b Hd.
  apply actuator_step_inv in Hd as [_ [[-> _]|(c' & base & _ & Hrec & _)]]; [done|].
  by eapply recorded_keeps_index.
Qed.

(** X12: no index entry is ever deleted from a category that is kept: an
    index of the template to which no device was assigned is still there,
    under the template's values or a device's. *)
Theorem final_keeps_template_indices (template : caps)
    (sensor_information : list (string * string))
    (actuator_information : list (string * (string * (Q * Q))))
    (final : caps) (I_O c device_id : string) :
  reconcile template sensor_information actuator_information = Ok final →
  is_Some (get_category final I_O c) →
  is_Some (get_entry template I_O c device_id) →
  is_Some (get_entry final I_O c device_id).
Proof.
  intros (st & Hloops & ->)%reconcile_inv Hcat Htpl.
  rewrite prune_get_category in Hcat. rewrite prune_get_entry.
  case_bool_decide; [|by destruct Hcat].
  apply reconcile_loops_inv in Hloops as (st0 & Hs & Ha).
  eapply run_actuators_keeps_index; [done|]. simpl.
  eapply run_sensors_keeps_index; [done|]. done.
Qed.

Lemma final_keeps_template_indices_witness :
  is_Some (get_entry
             (result_get ∅
                (reconcile
                   {[ "input" := {[ "gyro" := {[ "0" := example_entry "first";
                                                 "7" := example_entry "eighth" ]} ]};
                      "output" := ∅ ]}
                   [("head_gyro", "framequat")] []))
             "input" "gyro" "7").
Proof.
  apply (final_keeps_template_indices
           {[ "input" := {[ "gyro" := {[ "0" := example_entry "first";
                                         "7" := example_entry "eighth" ]} ]};
              "output" := ∅ ]}
           [("head_gyro", "framequat")] []).
  - vm_refl.
  - vm_decide.
  - vm_decide.
Defined.

(** X13: whatever the template holds, a category that is written out is
    one of the five the lookup tables map to. *)
Theorem final_categories_from_tables (template : caps)
    (sensor_information : list (string * string))
    (actuator_information : list (string * (string * (Q * Q))))
    (final : caps) (I_O c : string) :
  reconcile template sensor_information actuator_information = Ok final →
  is_Some (get_category final I_O c) →
  c ∈ sensor_categories ++ actuator_categories.
Proof.
  intros (st & Hloops & ->)%reconcile_inv Hcat.
  rewrite prune_get_category in Hcat. case_bool_decide as Hseen; [|by destruct Hcat].
  apply elem_of_app.
  destruct (reconcile_loops_seen _ _ _ _ _ Hloops Hseen)
    as [(n & ty & _ & Hty & _)|(n & ty & r & _ & Hty & _)].
  - left. by eapply SENSING_TYPES_range.
  - right. by eapply TRANSMISSION_TYPES_range.
Qed.

Lemma final_categories_from_tables_witness :
  "servo" ∈ sensor_categories ++ actuator_categories.
Proof.
  apply (final_categories_from_tables example_template example_sensors example_actuators
           example_final "output" "servo").
  - vm_refl.
  - vm_decide.
Defined.

(** ** The entry at index 0 *)

Lemma recorded_keeps_zero I_O0 c0 stored a b I_O c :
  recorded I_O0 c0 stored a b →
  c ∈ list_to_not_delete_device a →
  c ∈ list_to_not_delete_device b ∧
  get_entry (capabilities b) I_O c "0" = get_entry (capabilities a) I_O c "0".
Proof.
  intros Hrec Hseen. split; [apply (recorded_seen _ _ _ _ _ Hrec); by left|].
  rewrite (recorded_get_entry _ _ _ _ _ Hrec). rewrite decide_False; [done|].
  intros (_ & -> & Hzero). rewrite (recorded_again _ _ _ _ _ Hrec Hseen) in Hzero.
  rewrite <- py_str_0 in Hzero. by apply py_str_inj in Hzero.
Qed.

Lemma run_sensors_keeps_zero I_O c l st st' :
  run_loop sensor_step st l = Ok st' →
  c ∈ list_to_not_delete_device st →
  c ∈ list_to_not_delete_device st' ∧
  get_entry (capabilities st') I_O c "0" = get_entry (capabilities st) I_O c "0".
Proof.
  revert l st st'.
  apply (run_loop_preserves sensor_step (λ a b,
    c ∈ list_to_not_delete_device a →
    c ∈ list_to_not_delete_device b ∧
    get_entry (capabilities b) I_O c "0" = get_entry (capabilities a) I_O c "0")).
  - done.
  - intros x y z Hxy Hyz Hx. destruct (Hxy Hx) as [Hy Exy].
    destruct (Hyz Hy) as [Hz Eyz]. split; [done|congruence].
  - intros a [n ty] b Hd.
    apply sensor_step_inv in Hd as [_ [[-> _]|(c' & base & _ & Hrec & _)]]; [done|].
    by eapply recorded_keeps_zero.
Qed.

Lemma run_actuators_keeps_zero I_O c l st st' :
  run_loop actuator_step st l = Ok st' →
  c ∈ list_to_not_delete_device st →
  c ∈ list_to_not_delete_device st' ∧
  get_entry (capabilities st') I_O c "0" = get_entry (capabilities st) I_O c "0".
Proof.
  revert l st st'.
  apply (run_loop_preserves actuator_step (λ a b,
    c ∈ list_to_not_delete_device a →
    c ∈ list_to_not_delete_device b ∧
    get_entry (capabilities b) I_O c "0" = get_entry (capabilities a) I_O c "0")).
  - done.
  - intros x y z Hxy Hyz Hx. destruct (Hxy Hx) as [Hy Exy].
    destruct (Hyz Hy) as [Hz Eyz]. split; [done|congruence].
  - intros a [n [ty r]] b Hd.
    apply actuator_step_inv in Hd as [_ [[-> _]|(c' & base & _ & Hrec & _)]]; [done|].
    by eapply recorded_keeps_zero.
Qed.

Lemma evolves_unseen_entry template st I_O c device_id :
  evolves (initial_state template) st →
  c ∉ list_to_not_delete_device st →
  get_entry (capabilities st) I_O c device_id = get_entry template I_O c device_id.
Proof.
  intros (_ & _ & Hunseen) Hnew. unfold get_entry. by rewrite (Hunseen I_O c Hnew).
Qed.

(** X14: the entry at index ["0"] of a category belongs to the first
    discovered device of that category, whatever comes between it and the
    later ones: it is the template's entry at ["0"] with that device's
    name and index 0 (and, for an actuator, its limits). *)
Theorem first_device_at_index_zero (template final : caps) (c : string) (base : entry) :
  (∀ pre mujoco_device_name sensor_type post actuator_information,
      Forall (λ dev, SENSING_TYPES !! dev.2 ≠ Some c) pre →
      SENSING_TYPES !! sensor_type = Some c →
      get_entry template "input" c "0" = Some base →
      reconcile template (pre ++ (mujoco_device_name, sensor_type) :: post)
        actuator_information = Ok final →
      get_entry final "input" c "0" = Some (stamp mujoco_device_name 0 base)) ∧
  (∀ sensor_information pre mujoco_device_name actuator_type range_control post,
      Forall (λ dev, TRANSMISSION_TYPES !! dev.2.1 ≠ Some c) pre →
      TRANSMISSION_TYPES !! actuator_type = Some c →
      get_entry template "output" c "0" = Some base →
      reconcile template sensor_information
        (pre ++ (mujoco_device_name, (actuator_type, range_control)) :: post) = Ok final →
      get_entry final "output" c "0"
      = Some (stamp mujoco_device_name 0 (overwrite_limits c range_control base))).
Proof.
  split.
  - intros pre n ty post acts Hpre Hty Hbase (st & Hloops & ->)%reconcile_inv.
    apply reconcile_loops_inv in Hloops as (st0 & Hs & Ha).
    rewrite run_loop_app in Hs. apply rbind_Ok in Hs as (st_pre & Hs_pre & Hs).
    rewrite run_loop_cons in Hs. apply rbind_Ok in Hs as (st1 & Hstep & Hs_post).
    assert (c ∉ list_to_not_delete_device st_pre) as Hnew.
    { intros Hseen.
      destruct (run_sensors_seen _ _ _ Hs_pre c Hseen) as [Hnil|(n' & ty' & Hin & Hty' & _)].
      - by apply elem_of_nil in Hnil.
      - rewrite list.Forall_forall in Hpre. by apply (Hpre _ Hin). }
    assert (get_entry (capabilities st_pre) "input" c "0" = Some base) as Hbase_pre.
    { rewrite (evolves_unseen_entry template); [done| |done].
      by eapply run_sensors_evolves. }
    destruct (sensor_step_first st_pre n ty c base Hty Hbase_pre Hnew)
      as (st1' & Hstep' & Hrec & Hinc).
    assert (st1' = st1) as -> by congruence.
    pose proof (recorded_stored _ _ _ _ _ Hrec) as Hstored.
    rewrite Hinc, py_str_0 in Hstored.
    assert (c ∈ list_to_not_delete_device st1) as Hseen1.
    { apply (recorded_seen _ _ _ _ _ Hrec). by right. }
    destruct (run_sensors_keeps_zero "input" c _ _ _ Hs_post Hseen1) as [Hseen0 E0].
    destruct (run_actuators_keeps_zero "input" c _ _ _ Ha Hseen0) as [Hseen E].
    rewrite prune_get_entry, bool_decide_eq_true_2 by done.
    rewrite E. simpl. by rewrite E0.
  - intros sens pre n ty r post Hpre Hty Hbase (st & Hloops & ->)%reconcile_inv.
    rewrite reconcile_loops_app in Hloops.
    apply rbind_Ok in Hloops as (st_pre & Hpre_loops & Ha).
    rewrite run_loop_cons in Ha. apply rbind_Ok in Ha as (st1 & Hstep & Ha_post).
    assert (c ∉ list_to_not_delete_device st_pre) as Hnew.
    { intros Hseen. apply reconcile_loops_inv in Hpre_loops as (st0 & Hs & Ha).
      destruct (run_actuators_seen _ _ _ Ha c Hseen)
        as [Hseen0|(n' & ty' & r' & Hin & Hty' & _)].
      - apply (run_sensors_seen_sensor_categories _ _ _ _ Hs) in Hseen0.
        apply categories_disjoint in Hseen0. apply Hseen0.
        by eapply TRANSMISSION_TYPES_range.
      - rewrite list.Forall_forall in Hpre. by apply (Hpre _ Hin). }
    assert (get_entry (capabilities st_pre) "output" c "0" = Some base) as Hbase_pre.
    { rewrite (evolves_unseen_entry template); [done| |done].
      by eapply reconcile_loops_evolves. }
    destruct (actuator_step_first st_pre n ty r c base Hty Hbase_pre Hnew)
      as (st1' & Hstep' & Hrec & Hinc).
    assert (st1' = st1) as -> by congruence.
    pose proof (recorded_stored _ _ _ _ _ Hrec) as Hstored.
    rewrite Hinc, py_str_0 in Hstored.
    assert (c ∈ list_to_not_delete_device st1) as Hseen1.
    { apply (recorded_seen _ _ _ _ _ Hrec). by right. }
    destruct (run_actuators_keeps_zero "output" c _ _ _ Ha_post Hseen1) as [Hseen E].
    rewrite prune_get_entry, bool_decide_eq_true_2 by done. by rewrite E.
Qed.

(** X14 on the scene with interleaved categories: the first gyro keeps
    index 0. *)
Lemma first_device_at_index_zero_witness :
  get_entry
    (result_get ∅ (reconcile example_template interleaved_sensors interleaved_actuators))
    "input" "gyro" "0"
  = Some (stamp "g1" 0 (example_entry "template_gyro")).
Proof.
  apply (proj1 (first_device_at_index_zero example_template _ "gyro"
                  (example_entry "template_gyro"))
           [] "g1" "framequat"
           [("g2", "framequat"); ("p1", "distance"); ("g3", "framequat")]
           interleaved_actuators).
  - vm_decide.
  - vm_refl.
  - vm_refl.
  - vm_refl.
Defined.

(** ** The two loops do not disturb each other *)

(** The actuator loop leaves the whole input section alone. *)
Lemma run_actuators_input_section l st st' :
  run_loop actuator_step st l = Ok st' →
  capabilities st' !! "input" = capabilities st !! "input".
Proof.
  revert l st st'.
  apply (run_loop_preserves actuator_step (λ st st',
    capabilities st' !! "input" = capabilities st !! "input")).
  - done.
  - intros ??? H1 H2. by rewrite H2.
  - intros st [n [ty r]] st' Hstep.
    apply actuator_step_inv in Hstep as [_ [[-> _]|(c' & base & _ & Hrec & _)]]; [done|].
    destruct Hrec as (sec & indexed & _ & _ & _ & ->). by rewrite lookup_insert_ne.
Qed.

(** X15: what is written out for the sensor categories in the input
    section does not depend on the actuators of the scene. *)
Theorem input_independent_of_actuators (template : caps)
    (sensor_information : list (string * string))
    (actuator_information : list (string * (string * (Q * Q))))
    (final : caps) :
  reconcile template sensor_information actuator_information = Ok final →
  ∃ final0,
    reconcile template sensor_information [] = Ok final0 ∧
    ∀ c, c ∈ sensor_categories →
         get_category final "input" c = get_category final0 "input" c.
Proof.
  intros (st & Hloops & ->)%reconcile_inv.
  apply reconcile_loops_inv in Hloops as (st0 & Hs & Ha).
  exists (prune (list_to_not_delete_device (begin_actuators st0))
                (capabilities (begin_actuators st0))).
  split.
  - unfold reconcile, reconcile_loops. by rewrite Hs.
  - intros c Hc. rewrite !prune_get_category. simpl.
    assert (get_category (capabilities st) "input" c
            = get_category (capabilities st0) "input" c) as ->.
    { unfold get_category. by rewrite (run_actuators_input_section _ _ _ Ha). }
    assert (c ∈ list_to_not_delete_device st ↔ c ∈ list_to_not_delete_device st0)
      as Hiff.
    { split.
      - intros Hseen.
        destruct (run_actuators_seen _ _ _ Ha c Hseen)
          as [?|(n & ty & r & _ & Hty & _)]; [done|].
        apply categories_disjoint in Hc. destruct Hc.
        by eapply TRANSMISSION_TYPES_range.
      - intros Hseen. apply run_actuators_evolves in Ha as (Hmono & _).
        by apply Hmono. }
    by rewrite (bool_decide_ext _ _ Hiff).
Qed.

Lemma input_independent_of_actuators_witness :
  ∃ final0,
    reconcile example_template example_sensors [] = Ok final0 ∧
    ∀ c, c ∈ sensor_categories →
         get_category example_final "input" c = get_category final0 "input" c.
Proof.
  apply (input_independent_of_actuators example_template example_sensors
           example_actuators).
  vm_refl.
Defined.

Lemma next_increment_view seen1 seen2 inc c :
  (c ∈ seen1 ↔ c ∈ seen2) →
  (next_increment seen1 inc c).1 = (next_increment seen2 inc c).1.
Proof.
  intros Hiff. unfold next_increment.
  destruct (bool_decide_reflect (c ∈ seen1)) as [H1|H1];
    destruct (bool_decide_reflect (c ∈ seen2)) as [H2|H2]; try done; tauto.
Qed.

Lemma next_increment_seen seen inc c c' :
  c' ∈ (next_increment seen inc c).2 ↔ c' ∈ seen ∨ c' = c.
Proof.
  unfold next_increment. case_bool_decide as Hin; simpl.
  - split; [by left|]. by intros [?| ->].
  - rewrite elem_of_app, list_elem_of_singleton. tauto.
Qed.

(** One iteration of the actuator loop in two states that look alike. *)
Lemma actuator_step_view st1 st2 dev st1' :
  actuator_view st1 st2 →
  actuator_step st1 dev = Ok st1' →
  ∃ st2', actuator_step st2 dev = Ok st2' ∧ actuator_view st1' st2'.
Proof.
  destruct dev as [n [ty r]]. intros (Hout & Hseen & Hinc & Htemp) Hstep.
  unfold actuator_step in *.
  apply rbind_Ok in Hstep as (output & Houtput & Hstep).
  apply getitem_Ok in Houtput.
  unfold getitem at 1. rewrite <- Hout, Houtput. simpl.
  destruct (TRANSMISSION_TYPES !! ty) as [c|] eqn:Hty.
  2:{ injection Hstep as <-. exists st2. by split. }
  destruct (output !! c) as [indexed|] eqn:Hcat.
  2:{ injection Hstep as <-. exists st2. by split. }
  pose proof (TRANSMISSION_TYPES_range _ _ Hty) as Hc.
  pose proof (next_increment_view _ _ (increment st1) c (Hseen c Hc)) as Hnext.
  rewrite <- Hinc, <- Htemp.
  destruct (next_increment (list_to_not_delete_device st1) _ c) as [inc1 seen1] eqn:H1.
  destruct (next_increment (list_to_not_delete_device st2) _ c) as [inc2 seen2] eqn:H2.
  simpl in Hnext. subst inc2.
  apply rbind_Ok in Hstep as (base & Hbase & Hstep). rewrite Hbase. simpl.
  injection Hstep as <-. eexists. split; [done|].
  split; [|split; [|done]]; simpl.
  - by rewrite !lookup_insert_eq.
  - intros c' Hc'.
    change seen1 with ((inc1, seen1).2). change seen2 with ((inc1, seen2).2).
    rewrite <- H1, <- H2, !next_increment_seen. by rewrite (Hseen c' Hc').
Qed.

Lemma run_actuators_view l : ∀ st1 st2 st1',
  actuator_view st1 st2 →
  run_loop actuator_step st1 l = Ok st1' →
  ∃ st2', run_loop actuator_step st2 l = Ok st2' ∧ actuator_view st1' st2'.
Proof.
  induction l as [|dev l IH]; intros st1 st2 st1' Hview Hrun.
  - injection Hrun as <-. by exists st2.
  - rewrite run_loop_cons in Hrun. apply rbind_Ok in Hrun as (sta & Hd & Hrest).
    destruct (actuator_step_view _ _ _ _ Hview Hd) as (stb & Hd2 & Hview').
    destruct (IH _ _ _ Hview' Hrest) as (st2' & Hrun2 & Hview'').
    exists st2'. split; [|done]. by rewrite run_loop_cons, Hd2.
Qed.

(** X16: what is written out for the actuator categories in the output
    section does not depend on the sensors of the scene: the list of seen
    categories is shared by the two loops, but the two lookup tables map
    to different categories, so no sensor shifts the index of an
    actuator. *)
Theorem output_independent_of_sensors (template : caps)
    (sensor_information : list (string * string))
    (actuator_information : list (string * (string * (Q * Q))))
    (final : caps) :
  reconcile template sensor_information actuator_information = Ok final →
  ∃ final0,
    reconcile template [] actuator_information = Ok final0 ∧
    ∀ c, c ∈ actuator_categories →
         get_category final "output" c = get_category final0 "output" c.
Proof.
  intros (st & Hloops & ->)%reconcile_inv.
  apply reconcile_loops_inv in Hloops as (st0 & Hs & Ha).
  assert (actuator_view (begin_actuators st0) (begin_actuators (initial_state template)))
    as Hview.
  { split; [|split; [|done]]; simpl.
    - by apply run_sensors_output_section in Hs.
    - intros c Hc. split.
      + intros Hseen%(run_sensors_seen_sensor_categories _ _ _ _ Hs).
        by apply categories_disjoint in Hseen.
      + by intros ?%elem_of_nil. }
  destruct (run_actuators_view _ _ _ _ Hview Ha) as (st2 & Ha2 & Hout & Hseen & _).
  exists (prune (list_to_not_delete_device st2) (capabilities st2)). split.
  - unfold reconcile, reconcile_loops. simpl. by rewrite Ha2.
  - intros c Hc. rewrite !prune_get_category.
    rewrite (bool_decide_ext _ _ (Hseen c Hc)).
    unfold get_category. by rewrite Hout.
Qed.

Lemma output_independent_of_sensors_witness :
  ∃ final0,
    reconcile example_template [] example_actuators = Ok final0 ∧
    ∀ c, c ∈ actuator_categories →
         get_category example_final "output" c = get_category final0 "output" c.
Proof.
  apply (output_independent_of_sensors example_template example_sensors
           example_actuators).
  vm_refl.
Defined.

(** ** Where an entry comes from *)

Lemma run_sensors_written l : ∀ st st' I_O c device_id (e : entry),
  run_loop sensor_step st l = Ok st' →
  get_entry (capabilities st') I_O c device_id = Some e →
  get_entry (capabilities st) I_O c device_id = Some e ∨
  (I_O = "input" ∧ ∃ dev, dev ∈ l ∧ sensor_record dev c device_id e).
Proof.
  induction l as [|[n ty] l IH]; intros st st' I_O c device_id e Hrun He.
  - injection Hrun as <-. by left.
  - rewrite run_loop_cons in Hrun. apply rbind_Ok in Hrun as (st1 & Hd & Hrest).
    destruct (IH _ _ _ _ _ _ Hrest He) as [He1|(-> & dev & Hin & Hdev)].
    2:{ right. split; [done|]. exists dev. split; [by right | done]. }
    apply sensor_step_inv in Hd as [_ [[-> _]|(c1 & base & Hty & Hrec & _)]];
      [by left|].
    rewrite (recorded_get_entry _ _ _ _ _ Hrec) in He1.
    case_decide as Hslot; [|by left].
    destruct Hslot as (-> & -> & ->). injection He1 as <-.
    right. split; [done|]. exists (n, ty). split; [by left|].
    split; [done|]. by exists (increment st1), base.
Qed.

Lemma run_actuators_written_any l : ∀ st st' I_O c device_id (e : entry),
  run_loop actuator_step st l = Ok st' →
  get_entry (capabilities st') I_O c device_id = Some e →
  get_entry (capabilities st) I_O c device_id = Some e ∨
  (I_O = "output" ∧ ∃ dev, dev ∈ l ∧ actuator_record dev c device_id e).
Proof.
  induction l as [|[n [ty r]] l IH]; intros st st' I_O c device_id e Hrun He.
  - injection Hrun as <-. by left.
  - rewrite run_loop_cons in Hrun. apply rbind_Ok in Hrun as (st1 & Hd & Hrest).
    destruct (IH _ _ _ _ _ _ Hrest He) as [He1|(-> & dev & Hin & Hdev)].
    2:{ right. split; [done|]. exists dev. split; [by right | done]. }
    apply actuator_step_inv in Hd as [_ [[-> _]|(c1 & base & Hty & Hrec & _)]];
      [by left|].
    rewrite (recorded_get_entry _ _ _ _ _ Hrec) in He1.
    case_decide as Hslot; [|by left].
    destruct Hslot as (-> & -> & ->). injection He1 as <-.
    right. split; [done|]. exists (n, (ty, r)). split; [by left|].
    split; [done|]. by exists (increment st1), base.
Qed.

(** X17: an entry that is written out is the template's entry at its
    place, untouched, or the record of a discovered device: then it sits
    in the section of that device's loop, under the category the device
    maps to, carries the device's name as [custom_name], and its
    [feagi_index] is the number its index key spells. *)
Theorem final_entry_origin (template : caps)
    (sensor_information : list (string * string))
    (actuator_information : list (string * (string * (Q * Q))))
    (final : caps) (I_O c device_id : string) (e : entry) :
  reconcile template sensor_information actuator_information = Ok final →
  get_entry final I_O c device_id = Some e →
  get_entry template I_O c device_id = Some e ∨
  ∃ (mujoco_device_name : string) (i : nat),
    device_id = py_str i ∧
    e !! "custom_name" = Some (VStr mujoco_device_name) ∧
    e !! "feagi_index" = Some (VInt (Z.of_nat i)) ∧
    ((I_O = "input" ∧
      ∃ ty, (mujoco_device_name, ty) ∈ sensor_information ∧
            SENSING_TYPES !! ty = Some c) ∨
     (I_O = "output" ∧
      ∃ ty r, (mujoco_device_name, (ty, r)) ∈ actuator_information ∧
              TRANSMISSION_TYPES !! ty = Some c)).
Proof.
  intros (st & Hloops & ->)%reconcile_inv He.
  rewrite prune_get_entry in He. case_bool_decide; [|done].
  apply reconcile_loops_inv in Hloops as (st0 & Hs & Ha).
  destruct (run_actuators_written_any _ _ _ _ _ _ _ Ha He)
    as [He0|(-> & [n [ty r]] & Hin & Hty & i & base & -> & ->)].
  - simpl in He0.
    destruct (run_sensors_written _ _ _ _ _ _ _ Hs He0)
      as [Het|(-> & [n ty] & Hin & Hty & i & base & -> & ->)].
    + by left.
    + right. exists n, i. split; [done|].
      split; [apply stamp_custom_name|]. split; [apply stamp_feagi_index|].
      left. split; [done|]. by exists ty.
  - right. exists n, i. split; [done|].
    split; [apply stamp_custom_name|]. split; [apply stamp_feagi_index|].
    right. split; [done|]. by exists ty, r.
Qed.

Lemma final_entry_origin_witness :
  get_entry example_template "input" "gyro" "1"
  = Some (default ∅ (get_entry example_final "input" "gyro" "1")) ∨
  ∃ (mujoco_device_name : string) (i : nat),
    "1" = py_str i ∧
    default ∅ (get_entry example_final "input" "gyro" "1") !! "custom_name"
      = Some (VStr mujoco_device_name) ∧
    default ∅ (get_entry example_final "input" "gyro" "1") !! "feagi_index"
      = Some (VInt (Z.of_nat i)) ∧
    (("input" = "input" ∧
      ∃ ty, (mujoco_device_name, ty) ∈ example_sensors ∧
            SENSING_TYPES !! ty = Some "gyro") ∨
     ("input" = "output" ∧
      ∃ ty r, (mujoco_device_name, (ty, r)) ∈ example_actuators ∧
              TRANSMISSION_TYPES !! ty = Some "gyro")).
Proof.
  apply (final_entry_origin example_template example_sensors example_actuators
           example_final "input" "gyro" "1").
  - vm_refl.
  - vm_refl.
Defined.

(** ** [action], further *)

(** X18: applying a command batch with non-negative channel indices a
    second time changes nothing: the control array after the second
    application is the array after the first. *)
Theorem action_idempotent
    (recieve_servo_position_data recieve_servo_data : gmap Z Q) (ctrl : list Q) :
  map_Forall (λ k _, (0 ≤ k)%Z) recieve_servo_position_data →
  map_Forall (λ k _, (0 ≤ k)%Z) recieve_servo_data →
  ∃ ctrl',
    action recieve_servo_position_data recieve_servo_data ctrl = Ok ctrl' ∧
    action recieve_servo_position_data recieve_servo_data ctrl' = Ok ctrl'.
Proof.
  intros Hpos Hservo. unfold action.
  destruct (action_loop_post _ ctrl Hpos) as (c1 & E1 & Hlen1 & H1).
  destruct (action_loop_post _ c1 Hservo) as (c2 & E2 & Hlen2 & H2).
  destruct (action_loop_post _ c2 Hpos) as (c3 & E3 & Hlen3 & H3).
  destruct (action_loop_post _ c3 Hservo) as (c4 & E4 & Hlen4 & H4).
  exists c2. rewrite E1, rbind_Ok_l, E2. split; [done|].
  rewrite E3, rbind_Ok_l, E4. f_equal.
  apply list_eq. intros i.
  destruct (decide (i < length ctrl)) as [Hi|Hi].
  - rewrite H4, H3, H2 by lia.
    destruct (recieve_servo_data !! Z.of_nat i); [done|].
    destruct (recieve_servo_position_data !! Z.of_nat i) eqn:Hp; [|done].
    rewrite H1 by lia. by rewrite Hp.
  - rewrite !lookup_ge_None_2 by lia. done.
Qed.

Lemma action_idempotent_witness :
  ∃ ctrl',
    action {[ 1%Z := Qmake 1 4 ]} {[ 0%Z := Qmake 1 2; 5%Z := 1%Q ]} [0%Q; 0%Q; 0%Q]
      = Ok ctrl' ∧
    action {[ 1%Z := Qmake 1 4 ]} {[ 0%Z := Qmake 1 2; 5%Z := 1%Q ]} ctrl' = Ok ctrl'.
Proof.
  apply (action_idempotent {[ 1%Z := Qmake 1 4 ]} {[ 0%Z := Qmake 1 2; 5%Z := 1%Q ]}
           [0%Q; 0%Q; 0%Q]).
  - vm_decide.
  - vm_decide.
Defined.

(** What one loop of [action] does for arbitrary integer keys: it raises
    [IndexError] when a key is below [-len], and otherwise keeps the
    number of slots. *)
Lemma action_loop_bounds (d : gmap Z Q) (ctrl : list Q) :
  (action_loop d ctrl = Raise IndexError ∧
   ∃ k, is_Some (d !! k) ∧ (k < - Z.of_nat (length ctrl))%Z) ∨
  (∃ ctrl', action_loop d ctrl = Ok ctrl' ∧ length ctrl' = length ctrl ∧
            ∀ k, is_Some (d !! k) → (- Z.of_nat (length ctrl) ≤ k)%Z).
Proof.
  unfold action_loop. case_bool_decide as He.
  { subst d. right. exists ctrl. split_and!; [done..|].
    intros k [v Hk]. by rewrite lookup_empty in Hk. }
  clear He. revert d.
  apply (map_fold_weak_ind (λ (r : result (list Q)) (d : gmap Z Q),
    (r = Raise IndexError ∧
     ∃ k, is_Some (d !! k) ∧ (k < - Z.of_nat (length ctrl))%Z) ∨
    (∃ ctrl', r = Ok ctrl' ∧ length ctrl' = length ctrl ∧
              ∀ k, is_Some (d !! k) → (- Z.of_nat (length ctrl) ≤ k)%Z))).
  - right. exists ctrl. split_and!; [done..|].
    intros k [v Hk]. by rewrite lookup_empty in Hk.
  - intros k v d r Hfresh [[-> (k' & Hk' & Hlow)]|(c & -> & Hlen & Hkeys)].
    + left. split; [done|]. exists k'. split; [|done].
      rewrite lookup_insert_ne; [done|]. intros ->. rewrite Hfresh in Hk'.
      by destruct Hk'.
    + simpl. unfold ctrl_setitem. rewrite Hlen.
      assert (∀ k', is_Some (<[k:=v]> d !! k') →
                    (- Z.of_nat (length ctrl) ≤ k)%Z →
                    (- Z.of_nat (length ctrl) ≤ k')%Z) as Hins.
      { intros k' Hk' Hk. destruct (decide (k = k')) as [<-|Hne]; [done|].
        rewrite lookup_insert_ne in Hk' by done. by apply Hkeys. }
      repeat case_bool_decide.
      * right. eexists. split; [done|]. rewrite length_insert.
        split; [done|]. intros k' Hk'. apply Hins; [done|lia].
      * lia.
      * right. eexists. split; [done|]. rewrite length_insert.
        split; [done|]. intros k' Hk'. by apply Hins.
      * left. split; [done|]. exists k. rewrite lookup_insert_eq. split; [eauto|lia].
      * right. exists c. split_and!; [done..|]. intros k' Hk'. apply Hins; [done|lia].
Qed.

(** X19: [action] raises exactly when one of the two dictionaries holds
    a channel index below [-len(data.ctrl)], and what it raises is an
    [IndexError]; an index at or above the number of slots never raises. *)
Theorem action_raises_iff_below_range
    (recieve_servo_position_data recieve_servo_data : gmap Z Q) (ctrl : list Q) :
  (action recieve_servo_position_data recieve_servo_data ctrl = Raise IndexError ↔
   ∃ k, (is_Some (recieve_servo_position_data !! k) ∨ is_Some (recieve_servo_data !! k)) ∧
        (k < - Z.of_nat (length ctrl))%Z) ∧
  ((∃ ctrl', action recieve_servo_position_data recieve_servo_data ctrl = Ok ctrl' ∧
             length ctrl' = length ctrl) ↔
   ∀ k, is_Some (recieve_servo_position_data !! k) ∨ is_Some (recieve_servo_data !! k) →
        (- Z.of_nat (length ctrl) ≤ k)%Z).
Proof.
  unfold action.
  destruct (action_loop_bounds recieve_servo_position_data ctrl)
    as [[E1 (k1 & Hk1 & Hlow1)]|(c1 & E1 & Hlen1 & Hkeys1)]; rewrite E1; simpl.
  { split.
    - split; [|done]. intros _. eauto.
    - split; [by intros (? & ? & _)|]. intros Hall.
      assert (- Z.of_nat (length ctrl) ≤ k1)%Z by (apply Hall; by left). lia. }
  destruct (action_loop_bounds recieve_servo_data c1)
    as [[E2 (k2 & Hk2 & Hlow2)]|(c2 & E2 & Hlen2 & Hkeys2)]; rewrite E2;
    rewrite Hlen1 in *.
  { split.
    - split; [|done]. intros _. eauto.
    - split; [by intros (? & ? & _)|]. intros Hall.
      assert (- Z.of_nat (length ctrl) ≤ k2)%Z by (apply Hall; by right). lia. }
  split.
  - split; [done|]. intros (k & [Hk|Hk] & Hlow).
    + apply Hkeys1 in Hk. lia.
    + apply Hkeys2 in Hk. lia.
  - split.
    + intros _ k [Hk|Hk]; auto.
    + intros _. exists c2. split; [done|congruence].
Qed.

(** ** The contact-force record, further *)

Lemma foldl_store_dom {V : Type} (g : nat → V) (n : nat) (m0 : gmap string V) :
  dom (foldl (λ m i, <[py_str i := g i]> m) m0 (seq 0 n)) = dom m0 ∪ index_keys n.
Proof.
  unfold index_keys. induction n as [|n IH].
  - simpl. by rewrite union_empty_r_L.
  - rewrite seq_S, foldl_snoc, fmap_app, list_to_set_app_L, dom_insert_L, IH. simpl.
    apply set_eq. intros k. set_unfold. tauto.
Qed.

Lemma index_keys_union (m n : nat) : index_keys m ∪ index_keys n = index_keys (m `max` n).
Proof.
  unfold index_keys. apply set_eq. intros k.
  rewrite elem_of_union, !elem_of_list_to_set, !list_elem_of_fmap.
  setoid_rewrite elem_of_seq. split.
  - intros [(i & -> & Hi)|(i & -> & Hi)]; exists i; (split; [done|lia]).
  - intros (i & -> & Hi). destruct (decide (i < m)).
    + left. exists i. split; [done|lia].
    + right. exists i. split; [done|lia].
Qed.

Lemma index_keys_size (m : nat) : size (index_keys m) = m.
Proof.
  unfold index_keys. rewrite size_list_to_set.
  - by rewrite length_fmap, length_seq.
  - apply NoDup_fmap_2; [|apply NoDup_seq]. intros i j. apply py_str_inj.
Qed.

Lemma force_list_init_dom : dom force_list_init = index_keys 20.
Proof.
  unfold force_list_init.
  rewrite (foldl_store_dom (λ _, [0%Q; 0%Q; 0%Q]) 20 ∅).
  by rewrite dom_empty_L, union_empty_l_L.
Qed.

Lemma sample_contacts_dom f n (force_list : gmap string (list Q)) :
  dom (sample_contacts f n force_list) = dom force_list ∪ index_keys n.
Proof. apply (foldl_store_dom (contact_sample f) n force_list). Qed.

Lemma force_list_after_snoc steps step :
  force_list_after (steps ++ [step])
  = sample_contacts step.1 step.2 (force_list_after steps).
Proof. unfold force_list_after. by rewrite foldl_snoc. Qed.

(** X20: the record never shrinks and is never truncated: after any
    number of iterations its keys are [str(0)], ..., [str(m - 1)], where
    [m] is the largest number of simultaneous contacts seen so far, or 20
    if that is larger; so it holds exactly [m] entries. *)
Theorem force_list_keys (steps : list ((nat → list Q) * nat)) :
  let m := foldr Nat.max 20 (steps.*2) in
  dom (force_list_after steps) = index_keys m ∧
  size (force_list_after steps) = m.
Proof.
  intros m.
  assert (dom (force_list_after steps) = index_keys m) as Hdom.
  { unfold m. clear m. induction steps as [|step steps IH] using rev_ind.
    - apply force_list_init_dom.
    - rewrite force_list_after_snoc, sample_contacts_dom, IH, index_keys_union.
      f_equal. rewrite fmap_app, foldr_app. simpl.
      generalize (steps.*2). intros l. induction l as [|x l IHl]; simpl; lia. }
  split; [done|]. rewrite <- size_dom, Hdom. apply index_keys_size.
Qed.

(** X21: a contact slot is only overwritten while that contact index is
    active: after an iteration with [n2] contacts, the slots of the
    contacts [n2 <= i < n1] of the previous iteration still hold the
    forces sampled then. *)
Theorem stale_contact_samples (f1 f2 : nat → list Q) (n1 n2 i : nat)
    (force_list : gmap string (list Q)) :
  n2 ≤ i → i < n1 →
  sample_contacts f2 n2 (sample_contacts f1 n1 force_list) !! py_str i
  = Some (contact_sample f1 i).
Proof.
  intros Hlow Hhigh.
  destruct (foldl_store_lookup (contact_sample f2) n2 (sample_contacts f1 n1 force_list))
    as [_ Hout].
  destruct (foldl_store_lookup (contact_sample f1) n1 force_list) as [Hin _].
  etrans.
  - apply (Hout (py_str i)). intros j Hj Heq. apply py_str_inj in Heq. lia.
  - by apply Hin.
Qed.

Lemma stale_contact_samples_witness :
  sample_contacts (λ _, [0%Q; 0%Q; 0%Q; 0%Q; 0%Q; 0%Q]) 1
    (sample_contacts (λ i, [Qmake (Z.of_nat i) 1; 1%Q; 2%Q; 0%Q; 0%Q; 0%Q]) 3
       force_list_init) !! py_str 2
  = Some (contact_sample (λ i, [Qmake (Z.of_nat i) 1; 1%Q; 2%Q; 0%Q; 0%Q; 0%Q]) 2).
Proof.
  apply (stale_contact_samples
           (λ i, [Qmake (Z.of_nat i) 1; 1%Q; 2%Q; 0%Q; 0%Q; 0%Q])
           (λ _, [0%Q; 0%Q; 0%Q; 0%Q; 0%Q; 0%Q]) 3 1 2 force_list_init); lia.
Defined.

Lemma foldl_store_Forall {V : Type} (P : V → Prop) (g : nat → V) (n : nat)
    (m0 : gmap string V) :
  (∀ i, P (g i)) → map_Forall (λ _, P) m0 →
  map_Forall (λ _, P) (foldl (λ m i, <[py_str i := g i]> m) m0 (seq 0 n)).
Proof.
  intros Hg H0. induction n as [|n IH]; [done|].
  rewrite seq_S, foldl_snoc. simpl. by apply map_Forall_insert_2.
Qed.

(** X22: every slot of the record holds three numbers, at the start and
    after any number of iterations, whatever the engine writes. *)
Theorem force_list_three_components (steps : list ((nat → list Q) * nat)) :
  map_Forall (λ _ force, length force = 3) (force_list_after steps).
Proof.
  induction steps as [|step steps IH] using rev_ind.
  - apply (foldl_store_Forall (λ force, length force = 3) (λ _, [0%Q; 0%Q; 0%Q]) 20 ∅).
    + done.
    + apply map_Forall_empty.
  - rewrite force_list_after_snoc.
    by apply (foldl_store_Forall (λ force, length force = 3) (contact_sample step.1)).
Qed.

(** ** Edge cases of the reconciliation *)

(** X23: with no device in the scene every section of the template is
    written out empty. *)
Theorem reconcile_empty_scene (template : caps) :
  reconcile template [] [] = Ok ((λ _ : section, (∅ : section)) <$> template).
Proof.
  unfold reconcile, reconcile_loops. simpl. f_equal.
  apply map_eq. intros s. rewrite prune_lookup, lookup_fmap.
  destruct (template !! s) as [sec|]; [|done]. simpl. f_equal.
  apply map_eq. intros c. rewrite prune_section_lookup, lookup_empty.
  rewrite bool_decide_eq_false_2 by apply not_elem_of_nil.
  by destruct (sec !! c).
Qed.

(** The two gyros of the example scene, as a group. *)
Lemma sensor_group_indices_witness :
  ∃ st',
    run_loop sensor_step (initial_state example_template)
      [("head_gyro", "framequat"); ("torso_gyro", "framequat")] = Ok st' ∧
    ∀ j dev,
      [("head_gyro", "framequat"); ("torso_gyro", "framequat")] !! j = Some dev →
      ∃ e : entry,
        get_entry (capabilities st') "input" "gyro" (py_str j) = Some e ∧
        e !! "custom_name" = Some (VStr dev.1) ∧
        e !! "feagi_index" = Some (VInt (Z.of_nat j)).
Proof.
  apply (sensor_group_indices "gyro" (initial_state example_template)
           [("head_gyro", "framequat"); ("torso_gyro", "framequat")]
           (example_entry "template_gyro")).
  - vm_decide.
  - vm_refl.
  - vm_decide.
Defined.

(** The two servos of the example scene, as a group. *)
Lemma actuator_group_indices_witness :
  ∃ st',
    run_loop actuator_step (initial_state example_template)
      [("hip", ("position", (Qmake (-1) 2, Qmake 1 2)));
       ("knee", ("position", (Qmake (-2) 1, Qmake 0 1)))] = Ok st' ∧
    ∀ j dev,
      [("hip", ("position", (Qmake (-1) 2, Qmake 1 2)));
       ("knee", ("position", (Qmake (-2) 1, Qmake 0 1)))] !! j = Some dev →
      ∃ e : entry,
        get_entry (capabilities st') "output" "servo" (py_str j) = Some e ∧
        e !! "custom_name" = Some (VStr dev.1) ∧
        e !! "feagi_index" = Some (VInt (Z.of_nat j)).
Proof.
  apply (actuator_group_indices "servo" (initial_state example_template)
           [("hip", ("position", (Qmake (-1) 2, Qmake 1 2)));
            ("knee", ("position", (Qmake (-2) 1, Qmake 0 1)))]
           (<["max_value" := VFloat (Qmake 180 1)]>
              (<["min_value" := VFloat (Qmake 0 1)]> (example_entry "template_servo")))).
  - vm_decide.
  - vm_refl.
  - vm_decide.
Defined.
